(** * SPSC ring buffer: a shallow embedding of [spsc_ring.c] and its properties

    The C translation unit [app/src/spsc_ring.c] implements a single-producer
    single-consumer queue of [int] over a power-of-two sized array with two
    [uint32_t] cursors.  This development embeds the six functions of that
    file as programs of a small monad over an explicit heap, and proves the
    sequential contract of the queue about them. *)

From Stdlib Require Import ZArith Lia.
From stdpp Require Import base option list gmap.

Local Open Scope Z_scope.

(** ** Machine integers

    [uint32_t] values are integers in [0, 2^32); arithmetic on them wraps. *)

Definition u32 (x : Z) : Z := x mod 2 ^ 32.

Definition is_u32 (x : Z) : Prop := 0 ≤ x < 2 ^ 32.

(** The C comparison operators yield the [int] 0 or 1. *)
Definition Z_of_bool (b : bool) : Z := if b then 1 else 0.

(** ** The heap

    A pointer is either [NULL] or the address of a live block.  Two kinds of
    block exist in this program: the ring structure itself and the [int]
    array that [buf] points to. *)

Definition addr := positive.
Definition ptr := option addr.
Definition NULL : ptr := None.

Record spsc_ring := mk_ring {
  buf : ptr;      (* int *buf *)
  size : Z;       (* uint32_t size *)
  mask : Z;       (* uint32_t mask *)
  head : Z;       (* _Atomic uint32_t head: the consumer's read index *)
  tail : Z        (* _Atomic uint32_t tail: the producer's write index *)
}.

(** The elements of the array are [int]s.  The program stores them and
    hands them back and does no arithmetic on them, so they are integers
    here, of any size. *)
Inductive block :=
| Ring_block (r : spsc_ring)
| Int_array (l : list Z).

Abbreviation mem := (gmap addr block).

(** ** Atomic accesses

    The two cursors are accessed through C11 atomics.  The sequential
    meaning of an access does not depend on its memory order, so each access
    is recorded in a trace with the order the source passes. *)

Inductive memory_order :=
| memory_order_relaxed
| memory_order_acquire
| memory_order_release
| memory_order_seq_cst.

Inductive cursor := Head | Tail.

Inductive event :=
| Ev_load (c : cursor) (o : memory_order)
| Ev_store (c : cursor) (o : memory_order) (v : Z).

(** ** The monad: heap state, a trace of atomic accesses, undefined behaviour

    A computation maps a heap to [None] when the C program has undefined
    behaviour there (a null or dangling dereference, an access outside an
    array), and otherwise to its result, the new heap and the accesses it
    made. *)

Definition M (A : Type) : Type := mem → option (A * mem * list event).

Definition ret {A} (a : A) : M A := λ m, Some (a, m, []).

Definition bind {A B} (c : M A) (k : A → M B) : M B := λ m,
  match c m with
  | None => None
  | Some (a, m1, t1) =>
      match k a m1 with
      | None => None
      | Some (b, m2, t2) => Some (b, m2, t1 ++ t2)
      end
  end.

Notation "x <- c ;; k" := (bind c (λ x, k))
  (at level 20, c at level 99, k at level 200, only parsing).

Definition emit (e : event) : M unit := λ m, Some (tt, m, [e]).

(** *** Allocation

    [calloc] either fails, returning [NULL] and leaving the heap alone, or
    returns the address of a new block.  Which of the two happens is decided
    by the environment: it is the argument [ok]. *)

Definition calloc (ok : bool) (b : block) : M ptr := λ m,
  if ok then let a := fresh (dom m) in Some (Some a, <[a := b]> m, [])
  else Some (NULL, m, []).

(** [free(NULL)] does nothing; freeing an address that is not live is
    undefined. *)
Definition free (p : ptr) : M unit := λ m,
  match p with
  | None => Some (tt, m, [])
  | Some a =>
      match m !! a with
      | Some _ => Some (tt, delete a m, [])
      | None => None
      end
  end.

(** *** Access to the ring structure and to the array *)

Definition load_ring (p : ptr) : M spsc_ring := λ m,
  match p with
  | None => None
  | Some a =>
      match m !! a with
      | Some (Ring_block r) => Some (r, m, [])
      | _ => None
      end
  end.

Definition update_ring (p : ptr) (f : spsc_ring → spsc_ring) : M unit := λ m,
  match p with
  | None => None
  | Some a =>
      match m !! a with
      | Some (Ring_block r) => Some (tt, <[a := Ring_block (f r)]> m, [])
      | _ => None
      end
  end.

Definition set_buf (b : ptr) (r : spsc_ring) : spsc_ring :=
  mk_ring b (size r) (mask r) (head r) (tail r).
Definition set_size (n : Z) (r : spsc_ring) : spsc_ring :=
  mk_ring (buf r) n (mask r) (head r) (tail r).
Definition set_mask (n : Z) (r : spsc_ring) : spsc_ring :=
  mk_ring (buf r) (size r) n (head r) (tail r).

Definition get_cursor (c : cursor) (r : spsc_ring) : Z :=
  match c with Head => head r | Tail => tail r end.
Definition set_cursor (c : cursor) (v : Z) (r : spsc_ring) : spsc_ring :=
  match c with
  | Head => mk_ring (buf r) (size r) (mask r) v (tail r)
  | Tail => mk_ring (buf r) (size r) (mask r) (head r) v
  end.

(** [p[i]] as an rvalue and [p[i] = v]; an index outside the array is
    undefined. *)
Definition load_int (p : ptr) (i : Z) : M Z := λ m,
  match p with
  | None => None
  | Some a =>
      match m !! a with
      | Some (Int_array l) =>
          if (0 <=? i) && (i <? Z.of_nat (length l)) then
            match l !! Z.to_nat i with
            | Some v => Some (v, m, [])
            | None => None
            end
          else None
      | _ => None
      end
  end.

Definition store_int (p : ptr) (i : Z) (v : Z) : M unit := λ m,
  match p with
  | None => None
  | Some a =>
      match m !! a with
      | Some (Int_array l) =>
          if (0 <=? i) && (i <? Z.of_nat (length l)) then
            Some (tt, <[a := Int_array (<[Z.to_nat i := v]> l)]> m, [])
          else None
      | _ => None
      end
  end.

(** *** The atomic operations of <stdatomic.h> on a cursor of [*ring] *)

Definition atomic_load_explicit (ring : ptr) (c : cursor) (o : memory_order)
  : M Z :=
  r <- load_ring ring ;;
  _ <- emit (Ev_load c o) ;;
  ret (get_cursor c r).

Definition atomic_store_explicit (ring : ptr) (c : cursor) (v : Z)
    (o : memory_order) : M unit :=
  _ <- update_ring ring (set_cursor c v) ;;
  emit (Ev_store c o v).

(** [atomic_store] is [atomic_store_explicit] at [memory_order_seq_cst]. *)
Definition atomic_store (ring : ptr) (c : cursor) (v : Z) : M unit :=
  atomic_store_explicit ring c v memory_order_seq_cst.

(** ** The functions of [spsc_ring.c] *)

Definition is_null (p : ptr) : bool :=
  match p with None => true | Some _ => false end.

(** What [calloc(1, sizeof(spsc_ring_t))] yields: every field zero. *)
Definition zero_ring : spsc_ring := mk_ring NULL 0 0 0 0.

(** [spsc_ring_init].  [ring_ok] and [buf_ok] are the outcomes of its two
    calls of [calloc]. *)
Definition spsc_ring_init (ring_ok buf_ok : bool) (capacity : Z) : M ptr :=
  if (capacity =? 0) || negb (Z.land capacity (u32 (capacity - 1)) =? 0)
  then ret NULL
  else
    ring <- calloc ring_ok (Ring_block zero_ring) ;;
    if is_null ring then ret NULL
    else
      _ <- update_ring ring (set_size capacity) ;;
      _ <- update_ring ring (set_mask (u32 (capacity - 1))) ;;
      b <- calloc buf_ok (Int_array (replicate (Z.to_nat capacity) 0)) ;;
      _ <- update_ring ring (set_buf b) ;;
      if is_null b then
        _ <- free ring ;;
        ret NULL
      else
        _ <- atomic_store ring Head 0 ;;
        _ <- atomic_store ring Tail 0 ;;
        ret ring.

(** [spsc_ring_is_empty] *)
Definition spsc_ring_is_empty (ring : ptr) : M Z :=
  h <- atomic_load_explicit ring Head memory_order_relaxed ;;
  t <- atomic_load_explicit ring Tail memory_order_acquire ;;
  r <- load_ring ring ;;
  ret (Z_of_bool (Z.land h (mask r) =? Z.land t (mask r))).

(** [spsc_ring_is_full] *)
Definition spsc_ring_is_full (ring : ptr) : M Z :=
  h <- atomic_load_explicit ring Head memory_order_relaxed ;;
  t <- atomic_load_explicit ring Tail memory_order_acquire ;;
  r <- load_ring ring ;;
  ret (Z_of_bool (Z.land (u32 (t + 1)) (mask r) =? Z.land h (mask r))).

(** [spsc_ring_push] *)
Definition spsc_ring_push (ring : ptr) (fd : Z) : M Z :=
  if is_null ring then ret (-1)
  else
    full <- spsc_ring_is_full ring ;;
    if negb (full =? 0) then ret (-1)
    else
      t <- atomic_load_explicit ring Tail memory_order_relaxed ;;
      r <- load_ring ring ;;
      _ <- store_int (buf r) (Z.land t (mask r)) fd ;;
      _ <- atomic_store_explicit ring Tail (u32 (t + 1)) memory_order_release ;;
      ret 0.

(** [spsc_ring_pop].  The argument [out_fd] is [None] for a null pointer and
    [Some old] for a pointer to an [int] that holds [old]; the second
    component of the result is what that location holds afterwards. *)
Definition spsc_ring_pop (ring : ptr) (out_fd : option Z) : M (Z * option Z) :=
  h <- atomic_load_explicit ring Head memory_order_relaxed ;;
  empty <- spsc_ring_is_empty ring ;;
  if negb (empty =? 0) then ret (-1, out_fd)
  else
    out <- match out_fd with
              | Some _ =>
                  r <- load_ring ring ;;
                  v <- load_int (buf r) (Z.land h (mask r)) ;;
                  ret (Some v)
              | None => ret None
              end ;;
    _ <- atomic_store_explicit ring Head (u32 (h + 1)) memory_order_release ;;
    ret (0, out).

(** [spsc_ring_destroy].  The argument is [None] for a null [ring], and
    [Some p] when [ring] points to a handle holding [p]; the result is what
    the handle holds afterwards. *)
Definition spsc_ring_destroy (ring : option ptr) : M (option ptr) :=
  match ring with
  | Some (Some a) =>
      r <- load_ring (Some a) ;;
      _ <- free (buf r) ;;
      _ <- free (Some a) ;;
      ret (Some NULL)
  | _ => ret ring
  end.


(** ** Client programs: sequences of calls on one ring

    The claims quantify over what a caller does with a ring.  A caller's
    program is a list of calls; [run] performs them in order and collects
    what each returned. *)

Inductive op :=
| Push (fd : Z)
| Pop (out_fd : option Z)
| Is_empty
| Is_full.

Inductive res :=
| Pushed (rc : Z)
| Popped (rc : Z) (out : option Z)
| Answer (b : Z).

Definition run_op (ring : ptr) (o : op) : M res :=
  match o with
  | Push fd => rc <- spsc_ring_push ring fd ;; ret (Pushed rc)
  | Pop out_fd => x <- spsc_ring_pop ring out_fd ;; ret (Popped (fst x) (snd x))
  | Is_empty => b <- spsc_ring_is_empty ring ;; ret (Answer b)
  | Is_full => b <- spsc_ring_is_full ring ;; ret (Answer b)
  end.

Fixpoint run (ring : ptr) (os : list op) : M (list res) :=
  match os with
  | [] => ret []
  | o :: os' =>
      x <- run_op ring o ;;
      xs <- run ring os' ;;
      ret (x :: xs)
  end.

(** The values of the pushes that succeeded, in call order. *)
Fixpoint pushed (os : list op) (rs : list res) : list Z :=
  match os, rs with
  | Push fd :: os', Pushed rc :: rs' =>
      if rc =? 0 then fd :: pushed os' rs' else pushed os' rs'
  | _ :: os', _ :: rs' => pushed os' rs'
  | _, _ => []
  end.

(** The pops that succeeded, in call order: the output location each was
    given ([None] for a null [out_fd]) and what it held on return. *)
Fixpoint popped (os : list op) (rs : list res) : list (option Z * option Z) :=
  match os, rs with
  | Pop out_fd :: os', Popped rc out :: rs' =>
      if rc =? 0 then (out_fd, out) :: popped os' rs' else popped os' rs'
  | _ :: os', _ :: rs' => popped os' rs'
  | _, _ => []
  end.

(** What a pop that takes the value [v] leaves in its output location. *)
Definition deliver (v : Z) (out_fd : option Z) : option Z :=
  match out_fd with
  | Some _ => Some v
  | None => None
  end.

(** [returns c m x m'] : from heap [m] the call [c] is defined, returns [x]
    and leaves heap [m']. *)
Definition returns {A} (c : M A) (m : mem) (x : A) (m' : mem) : Prop :=
  ∃ t, c m = Some (x, m', t).

(** What a call returns, without the heap and the trace. *)
Definition outcome {A} (c : M A) (m : mem) : option A :=
  (λ x, fst (fst x)) <$> c m.

(** A result that reports nothing done: a failed push, a failed pop, or a
    query answered with 1. *)
Definition refused (x : res) : Prop :=
  match x with
  | Pushed rc => rc = -1
  | Popped rc _ => rc = -1
  | Answer b => b = 1
  end.

(** ** Capacities *)

Definition pow2 (n : Z) : Prop := ∃ k, 0 ≤ k ∧ n = 2 ^ k.

Definition valid_capacity (n : Z) : Prop := is_u32 n ∧ pow2 n.

(** ** The representation invariant

    The invariant relates the heap to the history of the ring: [ps] lists
    the values of all pushes that succeeded so far and [nq] counts the pops
    that succeeded.  The cursors are these two counts wrapped to 32 bits,
    fewer than [cap] values are in flight, and the value of push number [i]
    sits in slot [i mod cap] for as long as it has not been popped. *)

Abbreviation len l := (Z.of_nat (length l)).

Record ring_rep (cap : Z) (a : addr) (ps : list Z) (nq : Z) (m : mem)
    (r : spsc_ring) (b : addr) (l : list Z) : Prop := {
  rep_ring : m !! a = Some (Ring_block r);
  rep_buf : buf r = Some b;
  rep_array : m !! b = Some (Int_array l);
  rep_size : size r = cap;
  rep_mask : mask r = cap - 1;
  rep_length : len l = cap;
  rep_head : head r = u32 nq;
  rep_tail : tail r = u32 (len ps);
  rep_count : 0 ≤ nq ≤ len ps;
  rep_room : len ps - nq ≤ cap - 1;
  rep_slots : ∀ i, nq ≤ i < len ps → l !! Z.to_nat (i mod cap) = ps !! Z.to_nat i
}.

Definition ring_inv (cap : Z) (a : addr) (ps : list Z) (nq : Z) (m : mem)
  : Prop :=
  ∃ r b l, ring_rep cap a ps nq m r b l.

(** The invariant with the address of the array made explicit. *)
Definition ring_at (cap : Z) (a b : addr) (ps : list Z) (nq : Z) (m : mem)
  : Prop :=
  ∃ r l, ring_rep cap a ps nq m r b l.

(** ** A reference queue

    The queue the ring is meant to be: a list of values, oldest first, that
    holds at most [cap - 1] of them.  [queue_step] answers one call and
    gives the queue after it. *)

Definition queue_step (cap : Z) (o : op) (q : list Z) : res * list Z :=
  match o with
  | Push fd =>
      if len q <? cap - 1 then (Pushed 0, q ++ [fd]) else (Pushed (-1), q)
  | Pop out_fd =>
      match q with
      | [] => (Popped (-1) out_fd, q)
      | v :: q' => (Popped 0 (deliver v out_fd), q')
      end
  | Is_empty => (Answer (Z_of_bool (len q =? 0)), q)
  | Is_full => (Answer (Z_of_bool (len q =? cap - 1)), q)
  end.

Fixpoint queue_run (cap : Z) (os : list op) (q : list Z) : list res * list Z :=
  match os with
  | [] => ([], q)
  | o :: os' =>
      let (x, q1) := queue_step cap o q in
      let (xs, q2) := queue_run cap os' q1 in
      (x :: xs, q2)
  end.

(** ** Programs on two rings

    A caller may hold several rings.  A program on two of them is a list of
    calls, each addressed to one ring. *)

Inductive side := On_first | On_second.

Definition pick (s : side) (r1 r2 : ptr) : ptr :=
  match s with On_first => r1 | On_second => r2 end.

Fixpoint run2 (r1 r2 : ptr) (os : list (side * op)) : M (list res) :=
  match os with
  | [] => ret []
  | (s, o) :: os' =>
      x <- run_op (pick s r1 r2) o ;;
      xs <- run2 r1 r2 os' ;;
      ret (x :: xs)
  end.

Definition same_side (s s' : side) : bool :=
  match s, s' with
  | On_first, On_first | On_second, On_second => true
  | _, _ => false
  end.

(** The calls addressed to ring [s], and what they returned. *)
Fixpoint calls_on (s : side) (os : list (side * op)) : list op :=
  match os with
  | [] => []
  | (s', o) :: os' =>
      if same_side s s' then o :: calls_on s os' else calls_on s os'
  end.

Fixpoint results_on (s : side) (os : list (side * op)) (rs : list res)
  : list res :=
  match os, rs with
  | (s', _) :: os', x :: rs' =>
      if same_side s s' then x :: results_on s os' rs' else results_on s os' rs'
  | _, _ => []
  end.

(** ** Who stores what

    [stores_only c e]: the access [e] is a load, or a release store to the
    cursor [c]. *)

Definition stores_only (c : cursor) (e : event) : Prop :=
  match e with
  | Ev_load _ _ => True
  | Ev_store c' o _ => c' = c ∧ o = memory_order_release
  end.

Definition is_load (e : event) : Prop :=
  match e with
  | Ev_load _ _ => True
  | Ev_store _ _ _ => False
  end.

(** ** A small heap for examples: a ring structure [r] at address 1 and an
    array [l] at address 2. *)

Definition heap_of (r : spsc_ring) (l : list Z) : mem :=
  <[1%positive := Ring_block r]> (<[2%positive := Int_array l]> ∅).

(** ** Ownership of a ring

    [owns cap a b q base m]: in the heap [m] the caller holds a ring of
    capacity [cap] at address [a], with its array at [b], whose contents,
    oldest first, are [q]; but for these two blocks, which are not in
    [base], the heap [m] is the heap [base]. *)

Definition owns (cap : Z) (a b : addr) (q : list Z) (base m : mem) : Prop :=
  base !! a = None
  ∧ base !! b = None
  ∧ (∃ ps nq, ring_at cap a b ps nq m ∧ drop (Z.to_nat nq) ps = q)
  ∧ ∀ c, c ≠ a → c ≠ b → m !! c = base !! c.

(** ** The demonstration program [main.c]

    What [main] prints is a list of messages, one for each call of
    [printf]; [Msg_popped value] stands for the line that shows [value]. *)

Inductive message :=
| Msg_init_failed      (* "Failed to initialize ring buffer." *)
| Msg_full             (* "Ring buffer is full after pushing 10 elements." *)
| Msg_not_full         (* "Ring buffer is not full after pushing 10 elements." *)
| Msg_popped (value : Z)   (* "Popped value: %d" *)
| Msg_pop_failed       (* "Failed to pop value, ring buffer might be empty." *)
| Msg_empty            (* "Ring buffer is empty after operations." *)
| Msg_not_empty.       (* "Ring buffer still has elements." *)

(** [for (int i = i0; i < i0 + n; i++) body], collecting what the body
    prints. *)
Fixpoint for_loop (body : Z → M (list message)) (i : Z) (n : nat)
  : M (list message) :=
  match n with
  | O => ret []
  | S n' =>
      o <- body i ;;
      os <- for_loop body (i + 1) n' ;;
      ret (o ++ os)
  end.

(** [main].  It returns its exit status and what it printed.  [ring_ok] and
    [buf_ok] are the outcomes of the two allocations of [spsc_ring_init].
    The variable [value] of the second loop is declared without an
    initializer in each iteration: [junk i] is what it holds in iteration
    [i] before the call of [spsc_ring_pop]. *)
Definition main (ring_ok buf_ok : bool) (junk : Z → Z)
  : M (Z * list message) :=
  ring <- spsc_ring_init ring_ok buf_ok 8 ;;
  if is_null ring then ret (-1, [Msg_init_failed])
  else
    o1 <- for_loop (λ i, _ <- spsc_ring_push ring (i + 42) ;; ret []) 0 10 ;;
    full <- spsc_ring_is_full ring ;;
    o2 <- for_loop
            (λ i,
               x <- spsc_ring_pop ring (Some (junk i)) ;;
               ret [if negb (default (junk i) (snd x) =? -1)
                    then Msg_popped (default (junk i) (snd x))
                    else Msg_pop_failed])
            0 10 ;;
    _ <- spsc_ring_push ring 52 ;;
    _ <- spsc_ring_push ring 53 ;;
    _ <- spsc_ring_pop ring None ;;
    _ <- spsc_ring_pop ring None ;;
    _ <- spsc_ring_pop ring None ;;
    empty <- spsc_ring_is_empty ring ;;
    _ <- spsc_ring_destroy (Some ring) ;;
    ret (0,
         o1 ++ [if negb (full =? 0) then Msg_full else Msg_not_full]
            ++ o2
            ++ [if negb (empty =? 0) then Msg_empty else Msg_not_empty]).

(** What [main] prints when the ring is constructed. *)
Definition main_output (junk : Z → Z) : list message :=
  [Msg_full] ++ (Msg_popped <$> [42; 43; 44; 45; 46; 47; 48])
  ++ ((λ i, if junk i =? -1 then Msg_pop_failed else Msg_popped (junk i))
        <$> [7; 8; 9])
  ++ [Msg_empty].

(** ** The unit tests [unit_tests.c]

    A test is a computation that ends early, with [None], at the first
    assertion that fails. *)

Definition T (A : Type) : Type := M (option A).

Definition tret {A} (a : A) : T A := ret (Some a).

Definition tbind {A B} (c : T A) (k : A → T B) : T B :=
  x <- c ;;
  match x with
  | Some a => k a
  | None => ret None
  end.

Notation "x <-- c ;; k" := (tbind c (λ x, k))
  (at level 20, c at level 99, k at level 200, only parsing).

Definition lift {A} (c : M A) : T A := x <- c ;; ret (Some x).

Definition check (b : bool) : T unit := ret (if b then Some tt else None).

(** The assertions of cmocka that the tests use. *)
Definition assert_true (x : Z) : T unit := check (negb (x =? 0)).
Definition assert_false (x : Z) : T unit := check (x =? 0).
Definition assert_int_equal (x y : Z) : T unit := check (x =? y).
Definition assert_null (p : ptr) : T unit := check (is_null p).
Definition assert_non_null (p : ptr) : T unit := check (negb (is_null p)).

Fixpoint tfor (body : Z → T unit) (i : Z) (n : nat) : T unit :=
  match n with
  | O => tret tt
  | S n' => _ <-- body i ;; tfor body (i + 1) n'
  end.

(** [create_ring] and [destroy_ring] *)
Definition create_ring (ring_ok buf_ok : bool) (capacity : Z) : T ptr :=
  ring <-- lift (spsc_ring_init ring_ok buf_ok capacity) ;;
  _ <-- assert_non_null ring ;;
  e <-- lift (spsc_ring_is_empty ring) ;;
  _ <-- assert_true e ;;
  tret ring.

(** [destroy_ring] is always called with the address of a local variable:
    its argument here is what that variable holds. *)
Definition destroy_ring (ring : ptr) : T unit :=
  h <-- lift (spsc_ring_destroy (Some ring)) ;;
  assert_null (default NULL h).

Definition test_init_accepts_power_of_two (ring_ok buf_ok : bool) : T unit :=
  ring <-- create_ring ring_ok buf_ok 16 ;;
  e <-- lift (spsc_ring_is_empty ring) ;;
  _ <-- assert_true e ;;
  destroy_ring ring.

Definition test_init_rejects_invalid_capacity (ring_ok buf_ok : bool)
  : T unit :=
  p <-- lift (spsc_ring_init ring_ok buf_ok 0) ;;
  _ <-- assert_null p ;;
  q <-- lift (spsc_ring_init ring_ok buf_ok 3) ;;
  assert_null q.

Definition test_push_pop_fifo_order (ring_ok buf_ok : bool) : T unit :=
  ring <-- create_ring ring_ok buf_ok 8 ;;
  _ <-- tfor (λ value,
                rc <-- lift (spsc_ring_push ring value) ;;
                assert_int_equal 0 rc) 0 5 ;;
  e <-- lift (spsc_ring_is_empty ring) ;;
  _ <-- assert_false e ;;
  _ <-- tfor (λ expected,
                x <-- lift (spsc_ring_pop ring (Some (-1))) ;;
                _ <-- assert_int_equal 0 (fst x) ;;
                assert_int_equal expected (default (-1) (snd x))) 0 5 ;;
  e' <-- lift (spsc_ring_is_empty ring) ;;
  _ <-- assert_true e' ;;
  destroy_ring ring.

Definition test_detects_full_ring (ring_ok buf_ok : bool) : T unit :=
  ring <-- create_ring ring_ok buf_ok 4 ;;
  rc1 <-- lift (spsc_ring_push ring 11) ;;
  _ <-- assert_int_equal 0 rc1 ;;
  rc2 <-- lift (spsc_ring_push ring 22) ;;
  _ <-- assert_int_equal 0 rc2 ;;
  rc3 <-- lift (spsc_ring_push ring 33) ;;
  _ <-- assert_int_equal 0 rc3 ;;
  f <-- lift (spsc_ring_is_full ring) ;;
  _ <-- assert_true f ;;
  rc4 <-- lift (spsc_ring_push ring 44) ;;
  _ <-- assert_int_equal (-1) rc4 ;;
  destroy_ring ring.

Definition test_pop_from_empty_ring (ring_ok buf_ok : bool) : T unit :=
  ring <-- create_ring ring_ok buf_ok 8 ;;
  x <-- lift (spsc_ring_pop ring (Some 0)) ;;
  _ <-- assert_int_equal (-1) (fst x) ;;
  e <-- lift (spsc_ring_is_empty ring) ;;
  _ <-- assert_true e ;;
  destroy_ring ring.

Definition test_push_returns_error_when_ring_full (ring_ok buf_ok : bool)
  : T unit :=
  ring <-- create_ring ring_ok buf_ok 8 ;;
  _ <-- tfor (λ i,
                rc <-- lift (spsc_ring_push ring i) ;;
                assert_int_equal 0 rc) 0 7 ;;
  f <-- lift (spsc_ring_is_full ring) ;;
  _ <-- assert_true f ;;
  rc <-- lift (spsc_ring_push ring 42) ;;
  _ <-- assert_int_equal (-1) rc ;;
  destroy_ring ring.

Definition test_pop_succeeds_when_not_empty (ring_ok buf_ok : bool)
  : T unit :=
  ring <-- create_ring ring_ok buf_ok 8 ;;
  rc <-- lift (spsc_ring_push ring 77) ;;
  _ <-- assert_int_equal 0 rc ;;
  x <-- lift (spsc_ring_pop ring (Some 0)) ;;
  _ <-- assert_int_equal 0 (fst x) ;;
  _ <-- assert_int_equal 77 (default 0 (snd x)) ;;
  destroy_ring ring.

Definition test_destroy_handles_null_pointer : T unit :=
  _ <-- lift (spsc_ring_destroy None) ;;
  tret tt.

Definition test_destroy_handles_null_ring_instance : T unit :=
  h <-- lift (spsc_ring_destroy (Some NULL)) ;;
  assert_null (default NULL h).

(** The tests that construct a ring, in the order of [main]'s table. *)
Definition tests_with_a_ring : list (bool → bool → T unit) :=
  [test_init_accepts_power_of_two; test_push_pop_fifo_order;
   test_detects_full_ring; test_pop_from_empty_ring;
   test_push_returns_error_when_ring_full; test_pop_succeeds_when_not_empty].

(** * Arithmetic of masks and wrapped cursors *)

Lemma pow2_pos n : pow2 n → 0 < n.
Proof. intros (k & Hk & ->). by apply Z.pow_pos_nonneg. Qed.

Lemma land_pred_pow2 k : 0 ≤ k → Z.land (2 ^ k) (2 ^ k - 1) = 0.
Proof.
  intros Hk. replace (2 ^ k - 1) with (Z.ones k).
  - rewrite Z.land_ones by done. apply Z.mod_same. by apply Z.pow_nonzero.
  - rewrite Z.ones_equiv. lia.
Qed.

Lemma land_pred_zero n : 0 < n → Z.land n (n - 1) = 0 → n = 2 ^ Z.log2 n.
Proof.
  intros Hn He.
  destruct (Z.log2_spec n Hn) as [Hlo Hhi].
  destruct (decide (n = 2 ^ Z.log2 n)) as [|Hne]; [done|exfalso].
  pose proof (Z.log2_nonneg n).
  assert (Hl : Z.log2 (n - 1) = Z.log2 n) by (apply Z.log2_unique; lia).
  assert (Hb : Z.testbit (Z.land n (n - 1)) (Z.log2 n) = true).
  { rewrite Z.land_spec, Z.bit_log2 by done.
    rewrite <- Hl. by rewrite Z.bit_log2 by lia. }
  rewrite He, Z.bits_0 in Hb. done.
Qed.

(** The test of [spsc_ring_init] accepts exactly the powers of two. *)
Lemma capacity_test n :
  is_u32 n →
  (n =? 0) || negb (Z.land n (u32 (n - 1)) =? 0) = false ↔ pow2 n.
Proof.
  intros Hn. unfold is_u32 in Hn. split.
  - intros H. apply orb_false_iff in H as [H0 H1].
    apply Z.eqb_neq in H0. apply negb_false_iff, Z.eqb_eq in H1.
    unfold u32 in H1. rewrite Z.mod_small in H1 by lia.
    exists (Z.log2 n). split; [apply Z.log2_nonneg|].
    apply land_pred_zero; [lia|done].
  - intros Hp. pose proof (pow2_pos _ Hp). destruct Hp as (k & Hk & ->).
    apply orb_false_iff. split; [apply Z.eqb_neq; lia|].
    apply negb_false_iff, Z.eqb_eq. unfold u32.
    rewrite Z.mod_small by lia. by apply land_pred_pow2.
Qed.

Arguments u32 : simpl never.

Lemma u32_small x : is_u32 x → u32 x = x.
Proof. intros H. unfold u32. by apply Z.mod_small. Qed.

Lemma u32_succ x : u32 (u32 x + 1) = u32 (x + 1).
Proof. unfold u32. apply Zplus_mod_idemp_l. Qed.

Lemma u32_sub x y : u32 (u32 x - u32 y) = u32 (x - y).
Proof. unfold u32. by rewrite Zminus_mod_idemp_l, Zminus_mod_idemp_r. Qed.

(** Symbolic execution of a monadic program: unfold the primitives, then
    resolve each heap lookup from a hypothesis or from the insertion that
    precedes it. *)
Ltac unfold_prims :=
  unfold atomic_store, atomic_load_explicit, atomic_store_explicit, bind,
    load_ring, update_ring, load_int, store_int, calloc, free, emit, ret.

Ltac exec_step :=
  first
    [ rewrite lookup_insert_eq
    | rewrite lookup_insert_ne by done
    | rewrite lookup_delete_eq
    | rewrite lookup_delete_ne by done
    | match goal with
      | H : ?m !! ?a = _ |- context [?m !! ?a] => rewrite H
      | H : buf ?r = _ |- context [buf ?r] => rewrite H
      end
    | progress simpl ].

Ltac exec := unfold_prims; repeat exec_step.

Section Capacity.
Variable cap : Z.
Hypothesis Hcap : valid_capacity cap.

Lemma cap_pos : 0 < cap.
Proof. destruct Hcap as [_ Hp]. by apply pow2_pos. Qed.

Lemma cap_lt : cap < 2 ^ 32.
Proof. destruct Hcap as [[_ ?] _]. done. Qed.

Lemma cap_divides : (cap | 2 ^ 32).
Proof.
  destruct Hcap as [[_ Hlt] (k & Hk & ->)].
  apply Z.pow_lt_mono_r_iff in Hlt; [|lia..].
  exists (2 ^ (32 - k)). rewrite <- Z.pow_add_r by lia. f_equal. lia.
Qed.

Lemma u32_pred_cap : u32 (cap - 1) = cap - 1.
Proof. apply u32_small. pose proof cap_pos. pose proof cap_lt. unfold is_u32. lia. Qed.

(** Masking with [cap - 1] is reduction modulo [cap]. *)
Lemma land_mask x : Z.land x (cap - 1) = x mod cap.
Proof.
  destruct Hcap as [_ (k & Hk & ->)].
  replace (2 ^ k - 1) with (Z.ones k) by (rewrite Z.ones_equiv; lia).
  by apply Z.land_ones.
Qed.

(** The wrap-around of a 32-bit cursor is invisible under the mask. *)
Lemma masked_cursor x : Z.land (u32 x) (cap - 1) = x mod cap.
Proof.
  rewrite land_mask. unfold u32. apply Z.mod_mod_divide, cap_divides.
Qed.

Lemma masked_cursor_bound x : 0 ≤ x mod cap < cap.
Proof. apply Z.mod_pos_bound, cap_pos. Qed.

Lemma mod_cap_inj x y : 0 ≤ y - x < cap → x mod cap = y mod cap → x = y.
Proof.
  intros Hd He. symmetry in He. apply Z.cong_iff_0 in He.
  rewrite Z.mod_small in He by done. lia.
Qed.

Lemma mod_cap_eqb x y :
  0 ≤ y - x < cap → (x mod cap =? y mod cap) = (x =? y).
Proof.
  intros Hd. destruct (Z.eqb_spec x y) as [->|Hne].
  - apply Z.eqb_refl.
  - apply Z.eqb_neq. intros He. by apply Hne, mod_cap_inj.
Qed.

(** The full test compares [tail + 1] with [head]: it holds exactly when
    the cursors are [cap - 1] apart. *)
Lemma full_test nq np :
  0 ≤ np - nq ≤ cap - 1 →
  (Z.land (u32 (u32 np + 1)) (cap - 1) =? Z.land (u32 nq) (cap - 1))
  = (np - nq =? cap - 1).
Proof.
  intros Hd. rewrite u32_succ, !masked_cursor.
  destruct (Z.eqb_spec (np - nq) (cap - 1)) as [He|Hne].
  - apply Z.eqb_eq. replace (np + 1) with (nq + 1 * cap) by lia.
    apply Z_mod_plus_full.
  - apply Z.eqb_neq. intros He. symmetry in He.
    apply mod_cap_inj in He; lia.
Qed.

Lemma empty_test nq np :
  0 ≤ np - nq ≤ cap - 1 →
  (Z.land (u32 nq) (cap - 1) =? Z.land (u32 np) (cap - 1)) = (nq =? np).
Proof. intros Hd. rewrite !masked_cursor. apply mod_cap_eqb. lia. Qed.


(** * The functions on a ring that satisfies the invariant *)

Lemma rep_distinct a ps nq m r b l : ring_rep cap a ps nq m r b l → a ≠ b.
Proof. intros [Ha _ Hb _ _ _ _ _ _ _ _] ->. congruence. Qed.

Lemma is_empty_spec a ps nq m :
  ring_inv cap a ps nq m →
  spsc_ring_is_empty (Some a) m
  = Some (Z_of_bool (nq =? len ps), m,
          [Ev_load Head memory_order_relaxed; Ev_load Tail memory_order_acquire]).
Proof.
  intros (r & b & l & []). unfold spsc_ring_is_empty. exec.
  rewrite rep_head0, rep_tail0, rep_mask0, (empty_test nq (len ps)) by lia.
  done.
Qed.

Lemma is_full_spec a ps nq m :
  ring_inv cap a ps nq m →
  spsc_ring_is_full (Some a) m
  = Some (Z_of_bool (len ps - nq =? cap - 1), m,
          [Ev_load Head memory_order_relaxed; Ev_load Tail memory_order_acquire]).
Proof.
  intros (r & b & l & []). unfold spsc_ring_is_full. exec.
  rewrite rep_head0, rep_tail0, rep_mask0, (full_test nq (len ps)) by lia.
  done.
Qed.

Lemma slot_index_lt x (l : list Z) : len l = cap → (Z.to_nat (x mod cap) < length l)%nat.
Proof. intros Hl. pose proof (masked_cursor_bound x). lia. Qed.

Lemma slot_index_ne x y :
  0 < y - x < cap → Z.to_nat (y mod cap) ≠ Z.to_nat (x mod cap).
Proof.
  intros Hd He. pose proof (masked_cursor_bound x).
  pose proof (masked_cursor_bound y).
  apply Z2Nat.inj in He; [|lia..]. symmetry in He.
  apply mod_cap_inj in He; lia.
Qed.

Lemma in_bounds x (l : list Z) :
  len l = cap → (0 <=? x mod cap) && (x mod cap <? len l) = true.
Proof.
  intros Hl. pose proof (masked_cursor_bound x).
  apply andb_true_iff. split; [apply Z.leb_le|apply Z.ltb_lt]; lia.
Qed.

(** A push into a ring that is not full stores the value and extends the
    history. *)
Lemma push_ok_spec a ps nq m v :
  ring_inv cap a ps nq m →
  len ps - nq < cap - 1 →
  ∃ m' t,
    spsc_ring_push (Some a) v m = Some (0, m', t)
    ∧ ring_inv cap a (ps ++ [v]) nq m'.
Proof.
  intros Hinv Hroom. pose proof (is_full_spec _ _ _ _ Hinv) as Hf.
  destruct Hinv as (r & b & l & Hrep).
  pose proof (rep_distinct _ _ _ _ _ _ _ Hrep) as Hab. destruct Hrep.
  unfold spsc_ring_push, is_null. unfold bind at 1.
  rewrite Hf. replace (len ps - nq =? cap - 1) with false
    by (symmetry; apply Z.eqb_neq; lia).
  simpl. unfold_prims. rewrite rep_ring0. simpl. rewrite rep_ring0. simpl.
  rewrite rep_buf0, rep_array0, rep_tail0, rep_mask0, masked_cursor.
  rewrite in_bounds by done. rewrite lookup_insert_ne by done.
  rewrite rep_ring0. simpl. do 2 eexists. split; [reflexivity|].
  exists (set_cursor Tail (u32 (u32 (len ps) + 1)) r), b,
    (<[Z.to_nat (len ps mod cap) := v]> l).
  split; simpl; try done.
  - apply lookup_insert_eq.
  - rewrite lookup_insert_ne by done. apply lookup_insert_eq.
  - by rewrite length_insert.
  - rewrite u32_succ, length_app. simpl. f_equal. lia.
  - rewrite length_app. simpl. lia.
  - rewrite length_app. simpl. lia.
  - intros i Hi. rewrite length_app in Hi. simpl in Hi.
    destruct (decide (i = len ps)) as [->|Hne].
    + rewrite list_lookup_insert_eq by by apply slot_index_lt.
      rewrite Nat2Z.id. by rewrite list_lookup_middle.
    + rewrite list_lookup_insert_ne by (apply slot_index_ne; lia).
      rewrite lookup_app_l by lia. apply rep_slots0. lia.
Qed.

(** A push into a full ring fails and leaves the heap as it was. *)
Lemma push_full_spec a ps nq m v :
  ring_inv cap a ps nq m →
  len ps - nq = cap - 1 →
  ∃ t, spsc_ring_push (Some a) v m = Some (-1, m, t).
Proof.
  intros Hinv Hfull. pose proof (is_full_spec _ _ _ _ Hinv) as Hf.
  unfold spsc_ring_push, is_null, bind.
  rewrite Hf, Hfull, Z.eqb_refl. simpl. by eexists.
Qed.

(** A pop from a ring that is not empty hands out the oldest value that has
    not been popped, when an output location is supplied, and advances
    [head] by one in 32-bit arithmetic; nothing else in the heap changes. *)
Lemma pop_ok_spec a ps nq m out :
  ring_inv cap a ps nq m →
  nq < len ps →
  ∃ v r t,
    ps !! Z.to_nat nq = Some v
    ∧ m !! a = Some (Ring_block r)
    ∧ spsc_ring_pop (Some a) out m
      = Some ((0, deliver v out),
              <[a := Ring_block (set_cursor Head (u32 (head r + 1)) r)]> m, t)
    ∧ ring_inv cap a ps (nq + 1)
        (<[a := Ring_block (set_cursor Head (u32 (head r + 1)) r)]> m).
Proof.
  intros Hinv Hne. pose proof (is_empty_spec _ _ _ _ Hinv) as He.
  destruct Hinv as (r & b & l & Hrep).
  pose proof (rep_distinct _ _ _ _ _ _ _ Hrep) as Hab. destruct Hrep.
  destruct r as [bf sz mk hd tl]. simpl in *. subst bf sz mk hd tl.
  destruct (ps !! Z.to_nat nq) as [v|] eqn:Hv;
    [|apply lookup_ge_None in Hv; lia].
  assert (Hslot : l !! Z.to_nat (nq mod cap) = Some v)
    by (rewrite rep_slots0 by lia; done).
  eexists v, _. unfold spsc_ring_pop. unfold bind at 1.
  unfold atomic_load_explicit at 1. unfold bind at 1 2, load_ring at 1, emit, ret.
  rewrite rep_ring0. simpl. unfold bind at 1. rewrite He.
  replace (nq =? len ps) with false by (symmetry; apply Z.eqb_neq; lia).
  simpl.
  assert (Hinv' : ring_inv cap a ps (nq + 1)
            (<[a := Ring_block
                      (mk_ring (Some b) cap (cap - 1) (u32 (u32 nq + 1))
                         (u32 (len ps)))]> m)).
  { exists (mk_ring (Some b) cap (cap - 1) (u32 (u32 nq + 1)) (u32 (len ps))),
      b, l.
    split; simpl; try done; try lia.
    - apply lookup_insert_eq.
    - by rewrite lookup_insert_ne.
    - apply u32_succ.
    - intros i Hi. apply rep_slots0. lia. }
  destruct out as [old|]; unfold_prims; simpl.
  - rewrite rep_ring0. simpl. rewrite rep_array0.
    rewrite masked_cursor, in_bounds by done. rewrite Hslot. simpl.
    rewrite rep_ring0. simpl. eexists. split_and!; done.
  - rewrite rep_ring0. simpl. eexists. split_and!; done.
Qed.

(** A pop from an empty ring fails; heap and output location stay as they
    were. *)
Lemma pop_empty_spec a ps nq m out :
  ring_inv cap a ps nq m →
  nq = len ps →
  ∃ t, spsc_ring_pop (Some a) out m = Some ((-1, out), m, t).
Proof.
  intros Hinv Heq. pose proof (is_empty_spec _ _ _ _ Hinv) as He.
  destruct Hinv as (r & b & l & []).
  unfold spsc_ring_pop. unfold bind at 1.
  unfold atomic_load_explicit at 1. unfold bind at 1 2, load_ring at 1, emit, ret.
  rewrite rep_ring0. simpl. unfold bind at 1. rewrite He.
  rewrite Heq, Z.eqb_refl. simpl. by eexists.
Qed.

(** ** Sequences of calls

    Every program runs to completion on a ring that satisfies the invariant,
    the invariant holds again afterwards for the extended history, and each
    value a pop hands out is the one the history has at that pop's
    position. *)
Lemma run_spec a os : ∀ ps nq m,
  ring_inv cap a ps nq m →
  ∃ rs m' t,
    run (Some a) os m = Some (rs, m', t)
    ∧ ring_inv cap a (ps ++ pushed os rs) (nq + len (popped os rs)) m'
    ∧ ∀ j out_fd out, popped os rs !! j = Some (out_fd, out) →
        ∃ v, (ps ++ pushed os rs) !! (Z.to_nat nq + j)%nat = Some v
             ∧ out = deliver v out_fd.
Proof.
  induction os as [|o os IH]; intros ps nq m Hinv.
  { exists [], m, []. simpl. rewrite app_nil_r, Z.add_0_r. done. }
  pose proof Hinv as (r0 & b0 & l0 & [_ _ _ _ _ _ _ _ Hcount Hroom _]).
  destruct o as [fd|out| |]; simpl run; unfold bind, run_op, ret.
  - destruct (decide (len ps - nq = cap - 1)) as [Hfull|Hnf].
    + destruct (push_full_spec _ _ _ _ fd Hinv Hfull) as (t1 & Hop).
      destruct (IH _ _ _ Hinv) as (rs & m' & t & Hrun & Hinv' & Hfifo).
      rewrite Hop. cbv beta iota. rewrite Hrun. simpl. by eexists _, _, _.
    + destruct (push_ok_spec _ _ _ _ fd Hinv ltac:(lia))
        as (m1 & t1 & Hop & Hinv1).
      destruct (IH _ _ _ Hinv1) as (rs & m' & t & Hrun & Hinv' & Hfifo).
      rewrite Hop. cbv beta iota. rewrite Hrun. simpl.
      rewrite <- app_assoc in Hinv'.
      setoid_rewrite <- app_assoc in Hfifo. by eexists _, _, _.
  - destruct (decide (nq = len ps)) as [Hempty|Hne].
    + destruct (pop_empty_spec _ _ _ _ out Hinv Hempty) as (t1 & Hop).
      destruct (IH _ _ _ Hinv) as (rs & m' & t & Hrun & Hinv' & Hfifo).
      rewrite Hop. cbv beta iota. rewrite Hrun. simpl. by eexists _, _, _.
    + destruct (pop_ok_spec _ _ _ _ out Hinv ltac:(lia))
        as (v & r & t1 & Hv & _ & Hop & Hinv1).
      destruct (IH _ _ _ Hinv1) as (rs & m' & t & Hrun & Hinv' & Hfifo).
      rewrite Hop. cbv beta iota. rewrite Hrun. simpl.
      eexists _, _, _. split; [done|]. split.
      * simpl length. replace (nq + Z.of_nat (S (length (popped os rs))))
          with (nq + 1 + len (popped os rs)) by lia. done.
      * intros [|j] out_fd w Hj; simpl in Hj.
        -- simplify_eq. exists v. rewrite Nat.add_0_r.
           split; [by apply lookup_app_l_Some|done].
        -- replace (Z.to_nat nq + S j)%nat with (Z.to_nat (nq + 1) + j)%nat
             by lia. by apply Hfifo.
  - rewrite (is_empty_spec _ _ _ _ Hinv).
    destruct (IH _ _ _ Hinv) as (rs & m' & t & Hrun & Hinv' & Hfifo).
    cbv beta iota. rewrite Hrun. simpl. by eexists _, _, _.
  - rewrite (is_full_spec _ _ _ _ Hinv).
    destruct (IH _ _ _ Hinv) as (rs & m' & t & Hrun & Hinv' & Hfifo).
    cbv beta iota. rewrite Hrun. simpl. by eexists _, _, _.
Qed.

(** ** Construction *)

Lemma calloc_ok blk (m : mem) :
  ∃ a, calloc true blk m = Some (Some a, <[a := blk]> m, []) ∧ m !! a = None.
Proof.
  exists (fresh (dom m)). split; [done|]. apply not_elem_of_dom, is_fresh.
Qed.

Lemma capacity_accepted :
  (cap =? 0) || negb (Z.land cap (u32 (cap - 1)) =? 0) = false.
Proof. destruct Hcap as [Hu Hp]. by apply capacity_test. Qed.

(** With both allocations succeeding, [spsc_ring_init] adds two blocks to
    the heap, at addresses that were free, and returns the address of a ring
    in its empty state: nothing pushed, nothing popped. *)
Lemma init_ok_spec (m : mem) :
  ∃ a b t,
    spsc_ring_init true true cap m
    = Some (Some a,
            <[a := Ring_block (mk_ring (Some b) cap (cap - 1) 0 0)]>
              (<[b := Int_array (replicate (Z.to_nat cap) 0)]> m), t)
    ∧ m !! a = None ∧ m !! b = None ∧ a ≠ b.
Proof.
  unfold spsc_ring_init. rewrite capacity_accepted. unfold bind at 1.
  destruct (calloc_ok (Ring_block zero_ring) m) as (a & -> & Ha).
  unfold is_null, update_ring at 1 2, bind at 1 2. rewrite lookup_insert_eq.
  rewrite lookup_insert_eq. unfold bind at 1.
  match goal with |- context [calloc true ?blk ?m1] =>
    destruct (calloc_ok blk m1) as (b & -> & Hb) end.
  assert (Hab : a ≠ b) by (intros ->; by rewrite lookup_insert_eq in Hb).
  rewrite !lookup_insert_ne in Hb by done.
  unfold_prims. rewrite lookup_insert_ne by done. rewrite lookup_insert_eq.
  cbv beta iota. rewrite !lookup_insert_eq. cbv beta iota.
  rewrite !insert_insert_eq, (insert_insert_ne _ b a) by done.
  rewrite !insert_insert_eq.
  unfold set_cursor, set_buf, set_mask, set_size. simpl.
  rewrite u32_pred_cap. by eexists a, b, _.
Qed.

Lemma fresh_ring_rep a b (m : mem) :
  a ≠ b →
  ring_rep cap a [] 0
    (<[a := Ring_block (mk_ring (Some b) cap (cap - 1) 0 0)]>
       (<[b := Int_array (replicate (Z.to_nat cap) 0)]> m))
    (mk_ring (Some b) cap (cap - 1) 0 0) b (replicate (Z.to_nat cap) 0).
Proof.
  intros Hab. pose proof cap_pos. split; simpl; try done; try lia.
  - apply lookup_insert_eq.
  - rewrite lookup_insert_ne by done. apply lookup_insert_eq.
  - rewrite length_replicate. lia.
Qed.

Lemma init_ok_inv (m : mem) :
  ∃ a m' t,
    spsc_ring_init true true cap m = Some (Some a, m', t)
    ∧ ring_inv cap a [] 0 m'.
Proof.
  destruct (init_ok_spec m) as (a & b & t & Hi & _ & _ & Hab).
  eexists a, _, t. split; [done|]. eexists _, _, _. by apply fresh_ring_rep.
Qed.

(** Destroying a ring right after its construction gives back the heap
    there was before: nothing is leaked. *)
Lemma init_then_destroy (m : mem) :
  returns (ring <- spsc_ring_init true true cap ;;
           spsc_ring_destroy (Some ring)) m (Some NULL) m.
Proof.
  destruct (init_ok_spec m) as (a & b & t & Hi & Ha & Hb & Hab).
  unfold returns, bind. rewrite Hi. cbv beta iota.
  unfold spsc_ring_destroy. unfold_prims. rewrite lookup_insert_eq.
  cbv beta iota. simpl buf. cbv beta iota.
  rewrite lookup_insert_ne, lookup_insert_eq by done.
  rewrite lookup_delete_ne, lookup_insert_eq by done.
  rewrite delete_insert_ne, delete_insert_eq, delete_insert_eq by done.
  rewrite (delete_id m b), (delete_id m a) by done. by eexists.
Qed.

(** When an allocation fails, [spsc_ring_init] returns [NULL] and the heap
    is what it was: the ring structure, if it was allocated, is freed. *)
Lemma init_ring_fail buf_ok (m : mem) :
  spsc_ring_init false buf_ok cap m = Some (NULL, m, []).
Proof. unfold spsc_ring_init. by rewrite capacity_accepted. Qed.

Lemma init_buf_fail (m : mem) :
  ∃ t, spsc_ring_init true false cap m = Some (NULL, m, t).
Proof.
  unfold spsc_ring_init. rewrite capacity_accepted. unfold bind at 1.
  destruct (calloc_ok (Ring_block zero_ring) m) as (a & -> & Ha).
  unfold_prims. unfold is_null, NULL.
  repeat (progress (rewrite ?lookup_insert_eq; cbv beta iota)).
  rewrite !insert_insert_eq, delete_insert_eq, delete_id by done.
  by eexists.
Qed.

(** ** Runs of pushes and of pops *)

Lemma run_pushes a vs : ∀ ps nq m,
  ring_inv cap a ps nq m →
  len ps - nq + len vs ≤ cap - 1 →
  ∃ m' t,
    run (Some a) (Push <$> vs) m = Some ((λ _, Pushed 0) <$> vs, m', t)
    ∧ ring_inv cap a (ps ++ vs) nq m'.
Proof.
  induction vs as [|v vs IH]; intros ps nq m Hinv Hroom.
  { exists m, []. by rewrite app_nil_r. }
  simpl in Hroom.
  destruct (push_ok_spec _ _ _ _ v Hinv ltac:(lia)) as (m1 & t1 & Hop & Hinv1).
  destruct (IH _ _ _ Hinv1) as (m' & t & Hrun & Hinv').
  { rewrite length_app. simpl. lia. }
  rewrite !fmap_cons. simpl run. unfold run_op. cbv beta iota.
  unfold bind, ret. rewrite Hop. cbv beta iota. rewrite Hrun.
  rewrite <- app_assoc in Hinv'. by eexists _, _.
Qed.

Lemma run_pops a vs : ∀ qs m,
  ring_inv cap a (qs ++ vs) (len qs) m →
  ∃ m' t,
    run (Some a) ((λ _, Pop (Some 0)) <$> vs) m
    = Some ((λ v, Popped 0 (Some v)) <$> vs, m', t)
    ∧ ring_inv cap a (qs ++ vs) (len qs + len vs) m'.
Proof.
  induction vs as [|v vs IH]; intros qs m Hinv.
  { exists m, []. by rewrite Z.add_0_r. }
  destruct (pop_ok_spec _ _ _ _ (Some 0) Hinv) as (w & r & t1 & Hw & _ & Hop & Hinv1).
  { rewrite length_app. simpl. lia. }
  rewrite Nat2Z.id, list_lookup_middle in Hw by done. simplify_eq.
  rewrite (cons_middle w qs vs), app_assoc in Hinv1.
  replace (len qs + 1) with (len (qs ++ [w])) in Hinv1
    by (rewrite length_app; simpl; lia).
  destruct (IH _ _ Hinv1) as (m' & t & Hrun & Hinv').
  rewrite !fmap_cons. simpl run. unfold run_op. cbv beta iota.
  unfold bind, ret. rewrite Hop. cbv beta iota. rewrite Hrun.
  eexists _, _. split; [done|].
  rewrite <- app_assoc in Hinv'. simpl in Hinv'.
  replace (len qs + len (w :: vs))
    with (len (qs ++ [w]) + len vs) by (rewrite length_app; simpl; lia).
  done.
Qed.

End Capacity.

(** ** Composition of programs *)

Lemma run_app ring os1 : ∀ os2 m rs1 m1 t1 rs2 m2 t2,
  run ring os1 m = Some (rs1, m1, t1) →
  run ring os2 m1 = Some (rs2, m2, t2) →
  ∃ t, run ring (os1 ++ os2) m = Some (rs1 ++ rs2, m2, t).
Proof.
  induction os1 as [|o os1 IH]; intros os2 m rs1 m1 t1 rs2 m2 t2 H1 H2.
  { simpl in H1. unfold ret in H1. simplify_eq. by eexists. }
  simpl in *. unfold bind, ret in *.
  destruct (run_op ring o m) as [[[x m'] t']|]; [|done].
  destruct (run ring os1 m') as [[[rs1' m1'] t1']|] eqn:Hr; [|done].
  simplify_eq. destruct (IH _ _ _ _ _ _ _ _ Hr H2) as (t & ->).
  by eexists.
Qed.

(** Solves [valid_capacity n] for a literal [n = 2 ^ k]. *)
Ltac valid_capacity_pow k :=
  split; [unfold is_u32; lia | exists k; split; [lia | reflexivity]].

(** * The contract of the ring *)

(** ** Construction *)

(** C4: for a 32-bit [capacity], [spsc_ring_init] returns [NULL] exactly
    when [capacity] is zero or not a power of two, or one of its two
    allocations fails.  For a positive power of two with both allocations
    succeeding it returns a ring with [size = capacity],
    [mask = capacity - 1], an array of [capacity] slots and both cursors at
    0. *)
Theorem init_null_iff (ring_ok buf_ok : bool) (capacity : Z) (m : mem) :
  is_u32 capacity →
  ∃ p m' t,
    spsc_ring_init ring_ok buf_ok capacity m = Some (p, m', t)
    ∧ (p = NULL ↔
       capacity = 0 ∨ ¬ pow2 capacity ∨ ring_ok = false ∨ buf_ok = false)
    ∧ (0 < capacity → pow2 capacity → ring_ok = true → buf_ok = true →
       ∃ a r b l,
         p = Some a
         ∧ m' !! a = Some (Ring_block r)
         ∧ size r = capacity ∧ mask r = capacity - 1
         ∧ buf r = Some b ∧ m' !! b = Some (Int_array l)
         ∧ len l = capacity
         ∧ head r = 0 ∧ tail r = 0).
Proof.
  intros Hu.
  destruct ((capacity =? 0) || negb (Z.land capacity (u32 (capacity - 1)) =? 0))
    eqn:Htest.
  - assert (Hnp : ¬ pow2 capacity).
    { intros Hp. apply (capacity_test _ Hu) in Hp. congruence. }
    exists NULL, m, []. unfold spsc_ring_init. rewrite Htest.
    split; [done|]. split; [|done]. split; auto.
  - assert (Hp : pow2 capacity) by by apply (capacity_test _ Hu).
    assert (Hcap : valid_capacity capacity) by done.
    pose proof (pow2_pos _ Hp) as Hpos.
    destruct ring_ok; [destruct buf_ok|].
    + destruct (init_ok_spec _ Hcap m) as (a & b & t & Hi & _ & _ & Hab).
      destruct (fresh_ring_rep _ Hcap a b m Hab).
      eexists (Some a), _, t. split; [done|]. split.
      * split; [done|]. intros [?|[?|[?|?]]]; (lia || done).
      * intros _ _ _ _. eexists a, _, b, _. split_and!; done.
    + destruct (init_buf_fail _ Hcap m) as (t & Hi).
      exists NULL, m, t. split; [done|]. split; [|done]. split; auto.
    + exists NULL, m, []. split; [by apply init_ring_fail|].
      split; [|done]. split; auto.
Qed.

Lemma init_null_iff_witness :
  is_u32 4
  ∧ ∃ p m' t,
      spsc_ring_init true true 4 ∅ = Some (p, m', t)
      ∧ (p = NULL ↔ 4 = 0 ∨ ¬ pow2 4 ∨ true = false ∨ true = false)
      ∧ (0 < 4 → pow2 4 → true = true → true = true →
         ∃ a r b l,
           p = Some a
           ∧ m' !! a = Some (Ring_block r)
           ∧ size r = 4 ∧ mask r = 4 - 1
           ∧ buf r = Some b ∧ m' !! b = Some (Int_array l)
           ∧ len l = 4
           ∧ head r = 0 ∧ tail r = 0).
Proof.
  split; [unfold is_u32; lia|].
  apply (init_null_iff true true 4 ∅). unfold is_u32. lia.
Defined.

(** ** First in, first out *)

(** C1: on a ring fresh from [spsc_ring_init], every program of pushes,
    pops and queries runs to completion, and the [i]-th pop that succeeds
    takes the value of the [i]-th push that succeeded: it leaves exactly that
    value in its output location when it was given one.  In particular,
    pushing [vs], fewer than [capacity] values, and popping as many times
    succeeds at every call and hands out [vs] in order. *)
Theorem fifo_order (capacity : Z) (m : mem) (os : list op) (vs : list Z) :
  valid_capacity capacity →
  ∃ ring m0,
    returns (spsc_ring_init true true capacity) m (Some ring) m0
    ∧ (∃ rs m1 t1,
         run (Some ring) os m0 = Some (rs, m1, t1)
         ∧ ∀ i out_fd out,
             popped os rs !! i = Some (out_fd, out) →
             ∃ v, pushed os rs !! i = Some v ∧ out = deliver v out_fd)
    ∧ (len vs < capacity →
       ∃ m1 t1,
         run (Some ring) ((Push <$> vs) ++ ((λ _, Pop (Some 0)) <$> vs)) m0
         = Some (((λ _, Pushed 0) <$> vs)
                   ++ ((λ v, Popped 0 (Some v)) <$> vs), m1, t1)).
Proof.
  intros Hcap.
  destruct (init_ok_inv _ Hcap m) as (a & m0 & t0 & Hi & Hinv).
  exists a, m0. split; [by exists t0|]. split.
  - destruct (run_spec _ Hcap a os _ _ _ Hinv) as (rs & m1 & t1 & Hr & _ & Hf).
    exists rs, m1, t1. split; [done|]. intros i out_fd out Hp.
    destruct (Hf _ _ _ Hp) as (v & Hv & ->). by exists v.
  - intros Hk.
    destruct (run_pushes _ Hcap a vs _ _ _ Hinv) as (m1 & t1 & Hr1 & Hinv1).
    { simpl. lia. }
    destruct (run_pops _ Hcap a vs [] m1 Hinv1) as (m2 & t2 & Hr2 & _).
    destruct (run_app _ _ _ _ _ _ _ _ _ _ Hr1 Hr2) as (t & Hr).
    by exists m2, t.
Qed.

Lemma fifo_order_witness :
  valid_capacity 4
  ∧ ∃ ring m0,
      returns (spsc_ring_init true true 4) ∅ (Some ring) m0
      ∧ (∃ rs m1 t1,
           run (Some ring) [Push 11; Pop None; Push 22; Push 33; Pop (Some 0)]
             m0 = Some (rs, m1, t1)
           ∧ ∀ i out_fd out,
               popped [Push 11; Pop None; Push 22; Push 33; Pop (Some 0)] rs
                 !! i = Some (out_fd, out) →
               ∃ v, pushed [Push 11; Pop None; Push 22; Push 33; Pop (Some 0)]
                      rs !! i = Some v
                    ∧ out = deliver v out_fd)
      ∧ (len [11; 22; 33] < 4 →
         ∃ m1 t1,
           run (Some ring)
             ((Push <$> [11; 22; 33]) ++ ((λ _, Pop (Some 0)) <$> [11; 22; 33]))
             m0
           = Some (((λ _, Pushed 0) <$> [11; 22; 33])
                     ++ ((λ v, Popped 0 (Some v)) <$> [11; 22; 33]), m1, t1)).
Proof.
  split; [valid_capacity_pow 2|].
  apply (fifo_order 4 ∅ [Push 11; Pop None; Push 22; Push 33; Pop (Some 0)]
           [11; 22; 33]).
  valid_capacity_pow 2.
Defined.

(** ** Full and empty *)

(** C2: after [capacity - 1] pushes into a fresh ring, all of which
    succeed, [spsc_ring_is_full] answers 1 and a further push returns -1 and
    leaves the whole heap, so every slot, as it was; after fewer pushes
    [spsc_ring_is_full] answers 0. *)
Theorem full_detection (capacity : Z) (m : mem) (vs : list Z) (fd : Z) :
  valid_capacity capacity →
  len vs ≤ capacity - 1 →
  ∃ ring m0 m1,
    returns (spsc_ring_init true true capacity) m (Some ring) m0
    ∧ returns (run (Some ring) (Push <$> vs)) m0 ((λ _, Pushed 0) <$> vs) m1
    ∧ (len vs = capacity - 1 →
       returns (spsc_ring_is_full (Some ring)) m1 1 m1
       ∧ returns (spsc_ring_push (Some ring) fd) m1 (-1) m1)
    ∧ (len vs < capacity - 1 →
       returns (spsc_ring_is_full (Some ring)) m1 0 m1).
Proof.
  intros Hcap Hk.
  destruct (init_ok_inv _ Hcap m) as (a & m0 & t0 & Hi & Hinv).
  destruct (run_pushes _ Hcap a vs _ _ _ Hinv) as (m1 & t1 & Hr & Hinv1).
  { simpl. lia. }
  simpl in Hinv1. pose proof (is_full_spec _ Hcap _ _ _ _ Hinv1) as Hf.
  rewrite Z.sub_0_r in Hf.
  exists a, m0, m1. split; [by exists t0|]. split; [by exists t1|]. split.
  - intros He. rewrite He, Z.eqb_refl in Hf. split; [by eexists|].
    apply (push_full_spec _ Hcap _ _ _ _ fd Hinv1). lia.
  - intros Hlt. replace (len vs =? capacity - 1) with false in Hf
      by (symmetry; apply Z.eqb_neq; lia).
    by eexists.
Qed.

Lemma full_detection_witness :
  valid_capacity 4
  ∧ len [11; 22; 33] ≤ 4 - 1
  ∧ ∃ ring m0 m1,
      returns (spsc_ring_init true true 4) ∅ (Some ring) m0
      ∧ returns (run (Some ring) (Push <$> [11; 22; 33])) m0
          ((λ _, Pushed 0) <$> [11; 22; 33]) m1
      ∧ (len [11; 22; 33] = 4 - 1 →
         returns (spsc_ring_is_full (Some ring)) m1 1 m1
         ∧ returns (spsc_ring_push (Some ring) 44) m1 (-1) m1)
      ∧ (len [11; 22; 33] < 4 - 1 →
         returns (spsc_ring_is_full (Some ring)) m1 0 m1).
Proof.
  split; [valid_capacity_pow 2|]. split; [simpl; lia|].
  apply (full_detection 4 ∅ [11; 22; 33] 44); [valid_capacity_pow 2|simpl; lia].
Defined.

(** C3: a fresh ring is empty; after a push that succeeds it is not, and
    popping that value makes it empty again.  In every state the ring can
    reach: when every value pushed with success has been popped, the ring
    reports empty and a pop returns -1 and leaves the output location and
    the heap alone; when some value pushed with success has not been popped,
    the ring reports not empty and a pop with a null [out_fd] returns 0,
    writes nothing, and replaces [head] by [head + 1] in 32-bit
    arithmetic. *)
Theorem empty_detection (capacity : Z) (m : mem) (fd : Z) (out_fd : option Z)
    (os : list op) :
  valid_capacity capacity →
  ∃ ring m0,
    returns (spsc_ring_init true true capacity) m (Some ring) m0
    ∧ returns (spsc_ring_is_empty (Some ring)) m0 1 m0
    ∧ (2 ≤ capacity → ∃ m1, returns (spsc_ring_push (Some ring) fd) m0 0 m1)
    ∧ (∀ m1, returns (spsc_ring_push (Some ring) fd) m0 0 m1 →
         returns (spsc_ring_is_empty (Some ring)) m1 0 m1
         ∧ ∃ m2,
             returns (spsc_ring_pop (Some ring) out_fd) m1
               (0, deliver fd out_fd) m2
             ∧ returns (spsc_ring_is_empty (Some ring)) m2 1 m2)
    ∧ ∃ rs m1 t1 r,
        run (Some ring) os m0 = Some (rs, m1, t1)
        ∧ m1 !! ring = Some (Ring_block r)
        ∧ len (popped os rs) ≤ len (pushed os rs)
        ∧ (len (popped os rs) = len (pushed os rs) →
           returns (spsc_ring_is_empty (Some ring)) m1 1 m1
           ∧ returns (spsc_ring_pop (Some ring) out_fd) m1 (-1, out_fd) m1)
        ∧ (len (popped os rs) < len (pushed os rs) →
           returns (spsc_ring_is_empty (Some ring)) m1 0 m1
           ∧ returns (spsc_ring_pop (Some ring) None) m1 (0, None)
               (<[ring := Ring_block (set_cursor Head (u32 (head r + 1)) r)]>
                  m1)).
Proof.
  intros Hcap.
  destruct (init_ok_inv _ Hcap m) as (a & m0 & t0 & Hi & Hinv).
  exists a, m0. split; [by exists t0|].
  split; [eexists; by rewrite (is_empty_spec _ Hcap _ _ _ _ Hinv)|].
  split; [|split].
  - intros H2.
    destruct (push_ok_spec _ Hcap _ _ _ _ fd Hinv) as (m1 & t1 & Hp & _);
      [simpl; lia|].
    by exists m1, t1.
  - intros m1 [t1 Hp].
    assert (Hroom : len ([] : list Z) - 0 < capacity - 1).
    { simpl. destruct (decide (capacity = 1)) as [->|]; [|pose proof (cap_pos _ Hcap); lia].
      destruct (push_full_spec _ Hcap _ _ _ _ fd Hinv) as (t & Hp'); [done|].
      congruence. }
    destruct (push_ok_spec _ Hcap _ _ _ _ fd Hinv Hroom) as (m1' & t1' & Hp' & Hinv1).
    assert (m1' = m1) as -> by congruence. simpl in Hinv1.
    split; [eexists; by rewrite (is_empty_spec _ Hcap _ _ _ _ Hinv1)|].
    destruct (pop_ok_spec _ Hcap _ _ _ _ out_fd Hinv1)
      as (v & r & t2 & Hv & _ & Hpop & Hinv2); [simpl; lia|].
    simpl in Hv. simplify_eq. eexists. split; [by eexists|].
    eexists. by rewrite (is_empty_spec _ Hcap _ _ _ _ Hinv2).
  - destruct (run_spec _ Hcap a os _ _ _ Hinv) as (rs & m1 & t1 & Hr & Hinv1 & _).
    simpl in Hinv1. rewrite Z.add_0_l in Hinv1.
    pose proof Hinv1 as (r & b & l & Hrep).
    pose proof (is_empty_spec _ Hcap _ _ _ _ Hinv1) as He.
    pose proof Hrep as [Ha _ _ _ _ _ _ _ Hcount _ _].
    exists rs, m1, t1, r. split; [done|]. split; [done|]. split; [lia|].
    split.
    + intros Heq. rewrite Heq, Z.eqb_refl in He. split; [by eexists|].
      by apply (pop_empty_spec _ Hcap _ _ _ _ out_fd Hinv1).
    + intros Hlt.
      replace (len (popped os rs) =? len (pushed os rs)) with false in He
        by (symmetry; apply Z.eqb_neq; lia).
      split; [by eexists|].
      destruct (pop_ok_spec _ Hcap _ _ _ _ None Hinv1)
        as (v & r' & t2 & _ & Ha' & Hpop & _); [lia|].
      assert (r' = r) as -> by congruence. by eexists.
Qed.

Lemma empty_detection_witness :
  valid_capacity 8
  ∧ ∃ ring m0,
      returns (spsc_ring_init true true 8) ∅ (Some ring) m0
      ∧ returns (spsc_ring_is_empty (Some ring)) m0 1 m0
      ∧ (2 ≤ 8 → ∃ m1, returns (spsc_ring_push (Some ring) 77) m0 0 m1)
      ∧ (∀ m1, returns (spsc_ring_push (Some ring) 77) m0 0 m1 →
           returns (spsc_ring_is_empty (Some ring)) m1 0 m1
           ∧ ∃ m2,
               returns (spsc_ring_pop (Some ring) (Some 0)) m1
                 (0, deliver 77 (Some 0)) m2
               ∧ returns (spsc_ring_is_empty (Some ring)) m2 1 m2)
      ∧ ∃ rs m1 t1 r,
          run (Some ring) [Push 52; Push 53; Pop (Some 0)] m0
          = Some (rs, m1, t1)
          ∧ m1 !! ring = Some (Ring_block r)
          ∧ len (popped [Push 52; Push 53; Pop (Some 0)] rs)
            ≤ len (pushed [Push 52; Push 53; Pop (Some 0)] rs)
          ∧ (len (popped [Push 52; Push 53; Pop (Some 0)] rs)
             = len (pushed [Push 52; Push 53; Pop (Some 0)] rs) →
             returns (spsc_ring_is_empty (Some ring)) m1 1 m1
             ∧ returns (spsc_ring_pop (Some ring) (Some 0)) m1 (-1, Some 0)
                 m1)
          ∧ (len (popped [Push 52; Push 53; Pop (Some 0)] rs)
             < len (pushed [Push 52; Push 53; Pop (Some 0)] rs) →
             returns (spsc_ring_is_empty (Some ring)) m1 0 m1
             ∧ returns (spsc_ring_pop (Some ring) None) m1 (0, None)
                 (<[ring := Ring_block (set_cursor Head (u32 (head r + 1)) r)]>
                    m1)).
Proof.
  split; [valid_capacity_pow 3|].
  apply (empty_detection 8 ∅ 77 (Some 0) [Push 52; Push 53; Pop (Some 0)]).
  valid_capacity_pow 3.
Defined.

(** ** The distance between the cursors *)

(** C5: after any program on a ring fresh from [spsc_ring_init], the
    unsigned 32-bit difference [tail - head] lies between 0 and
    [capacity - 1].  The program is arbitrary, so this holds after each of
    its calls. *)
Theorem cursor_distance (capacity : Z) (m : mem) (os : list op) :
  valid_capacity capacity →
  ∃ ring m0 rs m1 t1 r,
    returns (spsc_ring_init true true capacity) m (Some ring) m0
    ∧ run (Some ring) os m0 = Some (rs, m1, t1)
    ∧ m1 !! ring = Some (Ring_block r)
    ∧ 0 ≤ u32 (tail r - head r) ≤ capacity - 1.
Proof.
  intros Hcap.
  destruct (init_ok_inv _ Hcap m) as (a & m0 & t0 & Hi & Hinv).
  destruct (run_spec _ Hcap a os _ _ _ Hinv)
    as (rs & m1 & t1 & Hr & (r & b & l & []) & _).
  exists a, m0, rs, m1, t1, r. split; [by exists t0|]. split; [done|].
  split; [done|]. rewrite rep_head0, rep_tail0, u32_sub.
  pose proof (cap_lt _ Hcap). rewrite u32_small; [lia|]. unfold is_u32. lia.
Qed.

Lemma cursor_distance_witness :
  valid_capacity 4
  ∧ ∃ ring m0 rs m1 t1 r,
      returns (spsc_ring_init true true 4) ∅ (Some ring) m0
      ∧ run (Some ring) [Push 1; Push 2; Push 3; Push 4; Pop None; Push 5] m0
        = Some (rs, m1, t1)
      ∧ m1 !! ring = Some (Ring_block r)
      ∧ 0 ≤ u32 (tail r - head r) ≤ 4 - 1.
Proof.
  split; [valid_capacity_pow 2|].
  apply (cursor_distance 4 ∅ [Push 1; Push 2; Push 3; Push 4; Pop None; Push 5]).
  valid_capacity_pow 2.
Defined.

(** ** Failure has no effect *)

(** C6: in every state a ring can reach, a push into a full ring returns -1
    and leaves the heap, so both cursors and every slot, exactly as it was,
    and a pop from an empty ring returns -1 and leaves the heap and the
    output location exactly as they were; when the ring is not full, or not
    empty, the call succeeds instead.  The state after a failure being the
    state before it, whatever could be done with the ring before can be done
    after. *)
Theorem failure_leaves_state (capacity : Z) (m : mem) (os : list op) (fd : Z)
    (out_fd : option Z) :
  valid_capacity capacity →
  ∃ ring m0 rs m1 t1 f e,
    returns (spsc_ring_init true true capacity) m (Some ring) m0
    ∧ run (Some ring) os m0 = Some (rs, m1, t1)
    ∧ returns (spsc_ring_is_full (Some ring)) m1 f m1
    ∧ returns (spsc_ring_is_empty (Some ring)) m1 e m1
    ∧ (f = 1 ∨ f = 0)
    ∧ (e = 1 ∨ e = 0)
    ∧ (f = 1 → returns (spsc_ring_push (Some ring) fd) m1 (-1) m1)
    ∧ (f = 0 → ∃ m2, returns (spsc_ring_push (Some ring) fd) m1 0 m2)
    ∧ (e = 1 → returns (spsc_ring_pop (Some ring) out_fd) m1 (-1, out_fd) m1)
    ∧ (e = 0 →
       ∃ out m2, returns (spsc_ring_pop (Some ring) out_fd) m1 (0, out) m2).
Proof.
  intros Hcap.
  destruct (init_ok_inv _ Hcap m) as (a & m0 & t0 & Hi & Hinv).
  destruct (run_spec _ Hcap a os _ _ _ Hinv)
    as (rs & m1 & t1 & Hr & Hinv1 & _).
  pose proof Hinv1 as (r & b & l & [_ _ _ _ _ _ _ _ Hcount Hroom _]).
  pose proof (is_full_spec _ Hcap _ _ _ _ Hinv1) as Hf.
  pose proof (is_empty_spec _ Hcap _ _ _ _ Hinv1) as He.
  exists a, m0, rs, m1, t1. eexists _, _.
  split; [by exists t0|]. split; [done|].
  split; [by eexists|]. split; [by eexists|].
  split; [unfold Z_of_bool; case_match; auto|].
  split; [unfold Z_of_bool; case_match; auto|].
  split; [|split; [|split]].
  - intros H1. apply (push_full_spec _ Hcap _ _ _ _ fd Hinv1).
    destruct (Z.eqb_spec (len ([] ++ pushed os rs) - (0 + len (popped os rs)))
                (capacity - 1)); done.
  - intros H0.
    destruct (push_ok_spec _ Hcap _ _ _ _ fd Hinv1) as (m2 & t2 & Hp & _).
    + destruct (Z.eqb_spec (len ([] ++ pushed os rs) - (0 + len (popped os rs)))
                  (capacity - 1)); [done|lia].
    + by exists m2, t2.
  - intros H1. apply (pop_empty_spec _ Hcap _ _ _ _ out_fd Hinv1).
    destruct (Z.eqb_spec (0 + len (popped os rs)) (len ([] ++ pushed os rs)));
      done.
  - intros H0.
    destruct (pop_ok_spec _ Hcap _ _ _ _ out_fd Hinv1)
      as (v & r' & t2 & _ & _ & Hp & _).
    + destruct (Z.eqb_spec (0 + len (popped os rs))
                  (len ([] ++ pushed os rs))); [done|lia].
    + eexists _, _. by exists t2.
Qed.

Lemma failure_leaves_state_witness :
  valid_capacity 4
  ∧ ∃ ring m0 rs m1 t1 f e,
      returns (spsc_ring_init true true 4) ∅ (Some ring) m0
      ∧ run (Some ring) [Push 11; Push 22; Push 33] m0 = Some (rs, m1, t1)
      ∧ returns (spsc_ring_is_full (Some ring)) m1 f m1
      ∧ returns (spsc_ring_is_empty (Some ring)) m1 e m1
      ∧ (f = 1 ∨ f = 0)
      ∧ (e = 1 ∨ e = 0)
      ∧ (f = 1 → returns (spsc_ring_push (Some ring) 44) m1 (-1) m1)
      ∧ (f = 0 → ∃ m2, returns (spsc_ring_push (Some ring) 44) m1 0 m2)
      ∧ (e = 1 →
         returns (spsc_ring_pop (Some ring) (Some 0)) m1 (-1, Some 0) m1)
      ∧ (e = 0 →
         ∃ out m2,
           returns (spsc_ring_pop (Some ring) (Some 0)) m1 (0, out) m2).
Proof.
  split; [valid_capacity_pow 2|].
  apply (failure_leaves_state 4 ∅ [Push 11; Push 22; Push 33] 44 (Some 0)).
  valid_capacity_pow 2.
Defined.

(** ** Destruction *)

(** C7: [spsc_ring_destroy] does nothing when given a null pointer or a
    handle that holds [NULL].  Given a handle on a ring whose array is live,
    it frees the array and the structure, touches nothing else, and leaves
    [NULL] in the handle; destroying through the same handle again is then
    the do-nothing case, so two calls in a row have the effect of one. *)
Theorem destroy_safe (m : mem) :
  returns (spsc_ring_destroy None) m None m
  ∧ returns (spsc_ring_destroy (Some NULL)) m (Some NULL) m
  ∧ ∀ a r b l,
      m !! a = Some (Ring_block r) →
      buf r = Some b →
      m !! b = Some (Int_array l) →
      returns (spsc_ring_destroy (Some (Some a))) m (Some NULL)
        (delete a (delete b m))
      ∧ delete a (delete b m) !! a = None
      ∧ delete a (delete b m) !! b = None
      ∧ returns (h <- spsc_ring_destroy (Some (Some a)) ;; spsc_ring_destroy h)
          m (Some NULL) (delete a (delete b m)).
Proof.
  split; [by exists []|]. split; [by exists []|].
  intros a r b l Ha Hbuf Hb.
  assert (Hab : a ≠ b) by (intros ->; congruence).
  assert (Hd : spsc_ring_destroy (Some (Some a)) m
               = Some (Some NULL, delete a (delete b m), [])).
  { unfold spsc_ring_destroy. unfold_prims. rewrite Ha. cbv beta iota.
    rewrite Hbuf, Hb. cbv beta iota. rewrite lookup_delete_ne, Ha by done.
    done. }
  split; [by exists []|]. split; [apply lookup_delete_eq|].
  split; [rewrite lookup_delete_ne by done; apply lookup_delete_eq|].
  unfold returns, bind. rewrite Hd. cbv beta iota. by eexists.
Qed.

Lemma destroy_safe_witness :
  spsc_ring_init true true 4 ∅
  = Some (Some 1%positive,
          <[1%positive := Ring_block (mk_ring (Some 2%positive) 4 3 0 0)]>
            (<[2%positive := Int_array [0; 0; 0; 0]]> ∅),
          [Ev_store Head memory_order_seq_cst 0;
           Ev_store Tail memory_order_seq_cst 0])
  ∧ returns (spsc_ring_destroy (Some (Some 1%positive)))
      (<[1%positive := Ring_block (mk_ring (Some 2%positive) 4 3 0 0)]>
         (<[2%positive := Int_array [0; 0; 0; 0]]> ∅))
      (Some NULL) ∅.
Proof.
  split; [vm_compute; reflexivity|].
  destruct (destroy_safe
              (<[1%positive := Ring_block (mk_ring (Some 2%positive) 4 3 0 0)]>
                 (<[2%positive := Int_array [0; 0; 0; 0]]> ∅)))
    as (_ & _ & H).
  destruct (H 1%positive (mk_ring (Some 2%positive) 4 3 0 0) 2%positive
              [0; 0; 0; 0]) as (Hd & _); [reflexivity..|].
  exact Hd.
Defined.

(** ** The null guard *)

(** C9: [spsc_ring_push] on a null ring returns -1 and leaves the heap
    alone, for every value.  The other three functions dereference [ring]
    without a test: on a null ring their behaviour is undefined. *)
Theorem push_null_guard (fd : Z) (out_fd : option Z) (m : mem) :
  spsc_ring_push NULL fd m = Some (-1, m, [])
  ∧ spsc_ring_pop NULL out_fd m = None
  ∧ spsc_ring_is_empty NULL m = None
  ∧ spsc_ring_is_full NULL m = None.
Proof. done. Qed.

(** ** Memory orders *)

(** C8: on every ring, [spsc_ring_is_full] makes exactly two atomic
    accesses: a relaxed load of [head] followed by an acquire load of
    [tail].  It makes no acquire load of [head] and no relaxed load of
    [tail]. *)
Theorem is_full_memory_orders (m : mem) (a : addr) (r : spsc_ring) :
  m !! a = Some (Ring_block r) →
  ∃ x t,
    spsc_ring_is_full (Some a) m = Some (x, m, t)
    ∧ t = [Ev_load Head memory_order_relaxed; Ev_load Tail memory_order_acquire]
    ∧ (Ev_load Head memory_order_acquire ∉ t)
    ∧ (Ev_load Tail memory_order_relaxed ∉ t).
Proof.
  intros Ha. unfold spsc_ring_is_full. unfold_prims. rewrite Ha. simpl.
  rewrite Ha. simpl. rewrite Ha. simpl. eexists _, _. split; [done|].
  split; [done|]. split; intros Hin;
    repeat (apply elem_of_cons in Hin as [Hin|Hin]; [discriminate|]);
    by apply elem_of_nil in Hin.
Qed.

Lemma is_full_memory_orders_witness :
  ({[1%positive := Ring_block (mk_ring (Some 2%positive) 4 3 0 0)]} : mem)
    !! 1%positive
  = Some (Ring_block (mk_ring (Some 2%positive) 4 3 0 0))
  ∧ ∃ x t,
      spsc_ring_is_full (Some 1%positive)
        {[1%positive := Ring_block (mk_ring (Some 2%positive) 4 3 0 0)]}
      = Some (x, {[1%positive := Ring_block (mk_ring (Some 2%positive) 4 3 0 0)]},
              t)
      ∧ t = [Ev_load Head memory_order_relaxed;
             Ev_load Tail memory_order_acquire]
      ∧ (Ev_load Head memory_order_acquire ∉ t)
      ∧ (Ev_load Tail memory_order_relaxed ∉ t).
Proof.
  split; [reflexivity|].
  apply (is_full_memory_orders _ 1%positive
           (mk_ring (Some 2%positive) 4 3 0 0)).
  reflexivity.
Defined.

(** [spsc_ring_is_full] makes the accesses of [spsc_ring_is_empty], with the
    same orders; the producer's own store of [tail] in [spsc_ring_push] is a
    release, and the consumer's store of [head] in [spsc_ring_pop] too. *)
Lemma is_full_accesses_as_is_empty (m : mem) (p : ptr) :
  snd <$> spsc_ring_is_full p m = snd <$> spsc_ring_is_empty p m.
Proof.
  unfold spsc_ring_is_full, spsc_ring_is_empty. unfold_prims.
  destruct p as [a|]; [|done].
  destruct (m !! a) as [[r|l]|] eqn:Ha; simpl; rewrite ?Ha; simpl;
    rewrite ?Ha; done.
Qed.

(** ** Capacity one *)

Lemma run_capacity_1 a os : ∀ m,
  ring_inv 1 a [] 0 m →
  ∃ rs t, run (Some a) os m = Some (rs, m, t) ∧ Forall refused rs.
Proof.
  assert (Hcap : valid_capacity 1) by valid_capacity_pow 0.
  induction os as [|o os IH]; intros m Hinv.
  { by exists [], []. }
  destruct (IH m Hinv) as (rs & t & Hrun & Hall).
  destruct o as [fd|out| |]; simpl run; unfold bind, run_op, ret.
  - destruct (push_full_spec _ Hcap _ _ _ _ fd Hinv) as (t1 & Hop); [done|].
    rewrite Hop. cbv beta iota. rewrite Hrun.
    eexists _, _. split; [done|]. by constructor.
  - destruct (pop_empty_spec _ Hcap _ _ _ _ out Hinv) as (t1 & Hop); [done|].
    rewrite Hop. cbv beta iota. rewrite Hrun.
    eexists _, _. split; [done|]. by constructor.
  - rewrite (is_empty_spec _ Hcap _ _ _ _ Hinv). cbv beta iota. rewrite Hrun.
    eexists _, _. split; [done|]. by constructor.
  - rewrite (is_full_spec _ Hcap _ _ _ _ Hinv). cbv beta iota. rewrite Hrun.
    eexists _, _. split; [done|]. by constructor.
Qed.

(** C10: [spsc_ring_init] accepts capacity 1.  The ring it returns answers
    1 to both [spsc_ring_is_empty] and [spsc_ring_is_full], and in every
    program run on it each push returns -1, each pop returns -1, both
    queries keep answering 1, and the heap never changes: no value is ever
    stored. *)
Theorem capacity_one_unusable (m : mem) (os : list op) :
  ∃ ring m0,
    returns (spsc_ring_init true true 1) m (Some ring) m0
    ∧ returns (spsc_ring_is_empty (Some ring)) m0 1 m0
    ∧ returns (spsc_ring_is_full (Some ring)) m0 1 m0
    ∧ ∃ rs,
        returns (run (Some ring) os) m0 rs m0
        ∧ Forall refused rs
        ∧ pushed os rs = [].
Proof.
  assert (Hcap : valid_capacity 1) by valid_capacity_pow 0.
  destruct (init_ok_inv _ Hcap m) as (a & m0 & t0 & Hi & Hinv).
  exists a, m0. split; [by exists t0|].
  split; [eexists; by rewrite (is_empty_spec _ Hcap _ _ _ _ Hinv)|].
  split; [eexists; by rewrite (is_full_spec _ Hcap _ _ _ _ Hinv)|].
  destruct (run_capacity_1 a os m0 Hinv) as (rs & t & Hrun & Hall).
  exists rs. split; [by exists t|]. split; [done|].
  clear Hrun. revert os. induction Hall as [|x rs Hx Hall IH]; intros os.
  - by destruct os as [|[]].
  - destruct os as [|o os]; [done|].
    destruct o, x; simpl in *; subst; try apply IH. 
Qed.

(** * The scenarios of the unit tests and of the demonstration program *)

(** [test_init_rejects_invalid_capacity] *)
Example init_rejects_0_and_3 :
  outcome (spsc_ring_init true true 0) ∅ = Some NULL
  ∧ outcome (spsc_ring_init true true 3) ∅ = Some NULL.
Proof. split; vm_compute; reflexivity. Qed.

(** [test_detects_full_ring], continued until the ring is empty again. *)
Example scenario_capacity_4 :
  outcome
    (ring <- spsc_ring_init true true 4 ;;
     run ring [Push 11; Push 22; Push 33; Is_full; Push 44; Pop (Some 0);
               Is_full; Pop (Some 0); Pop (Some 0); Is_empty; Pop (Some 0)])
    ∅
  = Some [Pushed 0; Pushed 0; Pushed 0; Answer 1; Pushed (-1);
          Popped 0 (Some 11); Answer 0; Popped 0 (Some 22);
          Popped 0 (Some 33); Answer 1; Popped (-1) (Some 0)].
Proof. vm_compute. reflexivity. Qed.

(** [test_push_pop_fifo_order] *)
Example scenario_fifo_capacity_8 :
  outcome
    (ring <- spsc_ring_init true true 8 ;;
     run ring ((Push <$> [0; 1; 2; 3; 4]) ++ [Is_empty]
               ++ ((λ _, Pop (Some (-1))) <$> [0; 1; 2; 3; 4]) ++ [Is_empty]))
    ∅
  = Some (((λ _, Pushed 0) <$> [0; 1; 2; 3; 4]) ++ [Answer 0]
          ++ ((λ v, Popped 0 (Some v)) <$> [0; 1; 2; 3; 4]) ++ [Answer 1]).
Proof. vm_compute. reflexivity. Qed.

(** [main]: ten pushes into a ring of capacity 8, of which seven succeed,
    then ten pops, then two pushes and three pops with a null [out_fd]. *)
Example scenario_main :
  outcome
    (ring <- spsc_ring_init true true 8 ;;
     rs <- run ring ((Push <$> [42; 43; 44; 45; 46; 47; 48; 49; 50; 51])
                     ++ [Is_full]
                     ++ replicate 10 (Pop (Some 0))
                     ++ [Push 52; Push 53; Pop None; Pop None; Pop None;
                         Is_empty]) ;;
     h <- spsc_ring_destroy (Some ring) ;;
     ret (rs, h))
    ∅
  = Some (replicate 7 (Pushed 0) ++ replicate 3 (Pushed (-1)) ++ [Answer 1]
          ++ ((λ v, Popped 0 (Some v)) <$> [42; 43; 44; 45; 46; 47; 48])
          ++ replicate 3 (Popped (-1) (Some 0))
          ++ [Pushed 0; Pushed 0; Popped 0 None; Popped 0 None;
              Popped (-1) None; Answer 1],
          Some NULL).
Proof. vm_compute. reflexivity. Qed.

(** Both cursors about to wrap at [2 ^ 32]: a push and a pop carry them to
    0 and the value goes through. *)
Example scenario_cursor_wrap :
  (_ <- run (Some 1%positive) [Push 7; Pop (Some 0)] ;;
   load_ring (Some 1%positive))
    (<[1%positive := Ring_block (mk_ring (Some 2%positive) 4 3 4294967295
                                   4294967295)]>
       (<[2%positive := Int_array [0; 0; 0; 0]]> ∅))
  = Some (mk_ring (Some 2%positive) 4 3 0 0,
          <[1%positive := Ring_block (mk_ring (Some 2%positive) 4 3 0 0)]>
            (<[2%positive := Int_array [0; 0; 0; 7]]> ∅),
          [Ev_load Head memory_order_relaxed; Ev_load Tail memory_order_acquire;
           Ev_load Tail memory_order_relaxed;
           Ev_store Tail memory_order_release 0;
           Ev_load Head memory_order_relaxed;
           Ev_load Head memory_order_relaxed; Ev_load Tail memory_order_acquire;
           Ev_store Head memory_order_release 0]).
Proof. vm_compute. reflexivity. Qed.

(** * The calls on an arbitrary heap

    What each function does on a heap in which [a] holds a ring structure
    [r], whatever its fields are. *)

Lemma is_empty_eq (m : mem) a r :
  m !! a = Some (Ring_block r) →
  spsc_ring_is_empty (Some a) m
  = Some (Z_of_bool (Z.land (head r) (mask r) =? Z.land (tail r) (mask r)), m,
          [Ev_load Head memory_order_relaxed; Ev_load Tail memory_order_acquire]).
Proof.
  intros Ha. unfold spsc_ring_is_empty. unfold_prims.
  rewrite Ha. cbv beta iota. rewrite Ha. cbv beta iota. by rewrite Ha.
Qed.

Lemma is_full_eq (m : mem) a r :
  m !! a = Some (Ring_block r) →
  spsc_ring_is_full (Some a) m
  = Some (Z_of_bool (Z.land (u32 (tail r + 1)) (mask r)
                     =? Z.land (head r) (mask r)), m,
          [Ev_load Head memory_order_relaxed; Ev_load Tail memory_order_acquire]).
Proof.
  intros Ha. unfold spsc_ring_is_full. unfold_prims.
  rewrite Ha. cbv beta iota. rewrite Ha. cbv beta iota. by rewrite Ha.
Qed.

Lemma push_eq (m : mem) a r fd :
  m !! a = Some (Ring_block r) →
  spsc_ring_push (Some a) fd m
  = if Z.land (u32 (tail r + 1)) (mask r) =? Z.land (head r) (mask r) then
      Some (-1, m,
            [Ev_load Head memory_order_relaxed;
             Ev_load Tail memory_order_acquire])
    else
      match buf r with
      | Some b =>
          match m !! b with
          | Some (Int_array l) =>
              if (0 <=? Z.land (tail r) (mask r))
                 && (Z.land (tail r) (mask r) <? len l)
              then
                Some (0,
                      <[a := Ring_block (set_cursor Tail (u32 (tail r + 1)) r)]>
                        (<[b := Int_array
                                  (<[Z.to_nat (Z.land (tail r) (mask r)) := fd]>
                                     l)]> m),
                      [Ev_load Head memory_order_relaxed;
                       Ev_load Tail memory_order_acquire;
                       Ev_load Tail memory_order_relaxed;
                       Ev_store Tail memory_order_release (u32 (tail r + 1))])
              else None
          | _ => None
          end
      | None => None
      end.
Proof.
  intros Ha. unfold spsc_ring_push, is_null. unfold bind at 1.
  rewrite (is_full_eq m a r Ha).
  destruct (Z.land (u32 (tail r + 1)) (mask r) =? Z.land (head r) (mask r));
    [done|].
  cbn [Z_of_bool Z.eqb negb]. unfold_prims. rewrite Ha. cbv beta iota.
  rewrite Ha. cbv beta iota. cbn [get_cursor].
  destruct (buf r) as [b|]; [|done].
  destruct (decide (b = a)) as [->|Hba]; [by rewrite Ha|].
  destruct (m !! b) as [[r'|l]|]; [done| |done].
  destruct ((0 <=? Z.land (tail r) (mask r))
            && (Z.land (tail r) (mask r) <? len l)); [|done].
  cbv beta iota. rewrite lookup_insert_ne by done. by rewrite Ha.
Qed.

Lemma pop_eq (m : mem) a r out_fd :
  m !! a = Some (Ring_block r) →
  spsc_ring_pop (Some a) out_fd m
  = if Z.land (head r) (mask r) =? Z.land (tail r) (mask r) then
      Some ((-1, out_fd), m,
            [Ev_load Head memory_order_relaxed;
             Ev_load Head memory_order_relaxed;
             Ev_load Tail memory_order_acquire])
    else
      match out_fd with
      | None =>
          Some ((0, None),
                <[a := Ring_block (set_cursor Head (u32 (head r + 1)) r)]> m,
                [Ev_load Head memory_order_relaxed;
                 Ev_load Head memory_order_relaxed;
                 Ev_load Tail memory_order_acquire;
                 Ev_store Head memory_order_release (u32 (head r + 1))])
      | Some _ =>
          match buf r with
          | Some b =>
              match m !! b with
              | Some (Int_array l) =>
                  if (0 <=? Z.land (head r) (mask r))
                     && (Z.land (head r) (mask r) <? len l)
                  then
                    match l !! Z.to_nat (Z.land (head r) (mask r)) with
                    | Some v =>
                        Some ((0, Some v),
                              <[a := Ring_block
                                       (set_cursor Head (u32 (head r + 1)) r)]>
                                m,
                              [Ev_load Head memory_order_relaxed;
                               Ev_load Head memory_order_relaxed;
                               Ev_load Tail memory_order_acquire;
                               Ev_store Head memory_order_release
                                 (u32 (head r + 1))])
                    | None => None
                    end
                  else None
              | _ => None
              end
          | None => None
          end
      end.
Proof.
  intros Ha. unfold spsc_ring_pop. unfold bind at 1.
  unfold atomic_load_explicit at 1. unfold bind at 1 2, load_ring at 1, emit, ret.
  rewrite Ha. cbv beta iota. unfold bind at 1. rewrite (is_empty_eq m a r Ha).
  cbn [get_cursor].
  destruct (Z.land (head r) (mask r) =? Z.land (tail r) (mask r)); [done|].
  cbn [Z_of_bool Z.eqb negb]. destruct out_fd as [old|]; unfold_prims.
  - rewrite Ha. cbv beta iota. destruct (buf r) as [b|]; [|done].
    destruct (m !! b) as [[r'|l]|]; [done| |done].
    destruct ((0 <=? Z.land (head r) (mask r))
              && (Z.land (head r) (mask r) <? len l)); [|done].
    destruct (l !! Z.to_nat (Z.land (head r) (mask r))) as [v|]; [|done].
    cbv beta iota. by rewrite Ha.
  - cbv beta iota. by rewrite Ha.
Qed.

(** A push that returns either failed and changed nothing, or wrote one
    slot of the array and the cursor [tail]. *)
Lemma push_cases (m : mem) a r fd rc m' t :
  m !! a = Some (Ring_block r) →
  spsc_ring_push (Some a) fd m = Some (rc, m', t) →
  (rc = -1 ∧ m' = m
   ∧ t = [Ev_load Head memory_order_relaxed; Ev_load Tail memory_order_acquire])
  ∨ ∃ b l,
      rc = 0 ∧ buf r = Some b ∧ b ≠ a ∧ m !! b = Some (Int_array l)
      ∧ 0 ≤ Z.land (tail r) (mask r) < len l
      ∧ m' = <[a := Ring_block (set_cursor Tail (u32 (tail r + 1)) r)]>
               (<[b := Int_array
                         (<[Z.to_nat (Z.land (tail r) (mask r)) := fd]> l)]> m)
      ∧ t = [Ev_load Head memory_order_relaxed;
             Ev_load Tail memory_order_acquire;
             Ev_load Tail memory_order_relaxed;
             Ev_store Tail memory_order_release (u32 (tail r + 1))].
Proof.
  intros Ha Hp. rewrite (push_eq m a r fd Ha) in Hp.
  destruct (Z.land (u32 (tail r + 1)) (mask r) =? Z.land (head r) (mask r)).
  { left. by simplify_eq. }
  destruct (buf r) as [b|] eqn:Hb; [|done].
  destruct (m !! b) as [[r'|l]|] eqn:Hl; [done| |done].
  destruct ((0 <=? Z.land (tail r) (mask r))
            && (Z.land (tail r) (mask r) <? len l)) eqn:Hin; [|done].
  apply andb_true_iff in Hin as [H0 H1].
  apply Z.leb_le in H0. apply Z.ltb_lt in H1.
  right. exists b, l. simplify_eq. split_and!; try done.
  intros ->. congruence.
Qed.

(** A pop that returns either failed and changed nothing, or changed the
    cursor [head] and nothing else in the heap. *)
Lemma pop_cases (m : mem) a r out_fd rc out m' t :
  m !! a = Some (Ring_block r) →
  spsc_ring_pop (Some a) out_fd m = Some ((rc, out), m', t) →
  (rc = -1 ∧ out = out_fd ∧ m' = m
   ∧ t = [Ev_load Head memory_order_relaxed; Ev_load Head memory_order_relaxed;
          Ev_load Tail memory_order_acquire])
  ∨ (rc = 0
     ∧ m' = <[a := Ring_block (set_cursor Head (u32 (head r + 1)) r)]> m
     ∧ t = [Ev_load Head memory_order_relaxed; Ev_load Head memory_order_relaxed;
            Ev_load Tail memory_order_acquire;
            Ev_store Head memory_order_release (u32 (head r + 1))]
     ∧ match out_fd with
       | None => out = None
       | Some _ =>
           ∃ b l v,
             buf r = Some b ∧ m !! b = Some (Int_array l)
             ∧ l !! Z.to_nat (Z.land (head r) (mask r)) = Some v
             ∧ out = Some v
       end).
Proof.
  intros Ha Hp. rewrite (pop_eq m a r out_fd Ha) in Hp.
  destruct (Z.land (head r) (mask r) =? Z.land (tail r) (mask r)).
  { left. by simplify_eq. }
  right. destruct out_fd as [old|]; [|by simplify_eq].
  destruct (buf r) as [b|] eqn:Hb; [|done].
  destruct (m !! b) as [[r'|l]|] eqn:Hl; [done| |done].
  destruct ((0 <=? Z.land (head r) (mask r))
            && (Z.land (head r) (mask r) <? len l)); [|done].
  destruct (l !! Z.to_nat (Z.land (head r) (mask r))) as [v|] eqn:Hv; [|done].
  simplify_eq. split_and!; try done. by exists b, l, v.
Qed.

(** On an address that holds no ring structure, a freed one for instance,
    every call is undefined. *)
Lemma no_ring_undefined (m : mem) a fd out_fd :
  (∀ r, m !! a ≠ Some (Ring_block r)) →
  spsc_ring_push (Some a) fd m = None
  ∧ spsc_ring_pop (Some a) out_fd m = None
  ∧ spsc_ring_is_empty (Some a) m = None
  ∧ spsc_ring_is_full (Some a) m = None
  ∧ spsc_ring_destroy (Some (Some a)) m = None.
Proof.
  intros Hno.
  unfold spsc_ring_push, spsc_ring_pop, spsc_ring_is_empty, spsc_ring_is_full,
    spsc_ring_destroy, is_null.
  unfold_prims.
  destruct (m !! a) as [[r|l]|] eqn:Ha; [by destruct (Hno r)|done..].
Qed.

(** * The ring refines the reference queue *)

Section Refinement.
Variable cap : Z.
Hypothesis Hcap : valid_capacity cap.

Lemma ring_at_inv a b ps nq m : ring_at cap a b ps nq m → ring_inv cap a ps nq m.
Proof. intros (r & l & H). by exists r, b, l. Qed.

Lemma ring_inv_at a b r ps nq (m : mem) :
  ring_inv cap a ps nq m →
  m !! a = Some (Ring_block r) →
  buf r = Some b →
  ring_at cap a b ps nq m.
Proof.
  intros (r' & b' & l & H) Ha Hb. pose proof H as [Ha' Hb' _ _ _ _ _ _ _ _ _].
  assert (r' = r) as -> by congruence. assert (b' = b) as -> by congruence.
  by exists r, l.
Qed.

(** The invariant of a ring depends on its two blocks only. *)
Lemma ring_at_frame a b ps nq (m m' : mem) :
  ring_at cap a b ps nq m →
  m' !! a = m !! a →
  m' !! b = m !! b →
  ring_at cap a b ps nq m'.
Proof.
  intros (r & l & []) Ha Hb. exists r, l. split; try done; congruence.
Qed.

Lemma ring_at_distinct a b ps nq m : ring_at cap a b ps nq m → a ≠ b.
Proof. intros (r & l & H). by apply (rep_distinct _ _ _ _ _ _ _ _ H). Qed.

Lemma queue_length (ps : list Z) nq :
  0 ≤ nq ≤ len ps → len (drop (Z.to_nat nq) ps) = len ps - nq.
Proof. intros H. rewrite length_drop. lia. Qed.

(** One call on the ring is one step of the queue of the values pushed and
    not yet popped; it changes no block but the ring's two. *)
Lemma step_refines a b o ps nq m :
  ring_at cap a b ps nq m →
  ∃ ps' nq' m' t,
    run_op (Some a) o m
    = Some (fst (queue_step cap o (drop (Z.to_nat nq) ps)), m', t)
    ∧ ring_at cap a b ps' nq' m'
    ∧ drop (Z.to_nat nq') ps' = snd (queue_step cap o (drop (Z.to_nat nq) ps))
    ∧ ∀ c, c ≠ a → c ≠ b → m' !! c = m !! c.
Proof.
  intros Hat. pose proof (ring_at_inv _ _ _ _ _ Hat) as Hinv.
  pose proof (ring_at_distinct _ _ _ _ _ Hat) as Hab.
  destruct Hat as (r & l & Hrep).
  pose proof Hrep as [Ha Hb Hl _ _ _ _ _ Hcount Hroom _].
  pose proof (queue_length ps nq Hcount) as Hq.
  destruct o as [fd|out_fd| |]; unfold run_op, queue_step, bind, ret.
  - rewrite Hq. destruct (Z.ltb_spec (len ps - nq) (cap - 1)) as [Hlt|Hge].
    + destruct (push_ok_spec _ Hcap _ _ _ _ fd Hinv Hlt) as (m' & t & Hp & Hinv').
      destruct (push_cases _ _ _ _ _ _ _ Ha Hp)
        as [(? & _)|(b' & l' & _ & Hb' & _ & _ & _ & -> & _)]; [done|].
      assert (b' = b) as -> by congruence. rewrite Hp.
      eexists (ps ++ [fd]), nq, _, _. split; [done|]. split; [|split].
      * eapply ring_inv_at; [done|apply lookup_insert_eq|done].
      * simpl. rewrite drop_app_le by lia. done.
      * intros c Hca Hcb. by rewrite !lookup_insert_ne.
    + destruct (push_full_spec _ Hcap _ _ _ _ fd Hinv) as (t & ->); [lia|].
      eexists ps, nq, m, _. split; [done|]. split; [by exists r, l|done].
  - destruct (decide (nq = len ps)) as [Heq|Hne].
    + destruct (pop_empty_spec _ Hcap _ _ _ _ out_fd Hinv Heq) as (t & ->).
      rewrite drop_ge by lia.
      eexists ps, nq, m, _. split; [done|]. split; [by exists r, l|].
      split; [|done]. by rewrite drop_ge by lia.
    + destruct (pop_ok_spec _ Hcap _ _ _ _ out_fd Hinv)
        as (v & r' & t & Hv & Ha' & -> & Hinv'); [lia|].
      assert (r' = r) as -> by congruence.
      rewrite (drop_S _ _ _ Hv). cbn [fst snd].
      eexists ps, (nq + 1), _, _. split; [done|]. split; [|split].
      * eapply ring_inv_at; [done|apply lookup_insert_eq|done].
      * by replace (Z.to_nat (nq + 1)) with (S (Z.to_nat nq)) by lia.
      * intros c Hca Hcb. by rewrite lookup_insert_ne.
  - rewrite (is_empty_spec _ Hcap _ _ _ _ Hinv), Hq.
    replace (len ps - nq =? 0) with (nq =? len ps)
      by (destruct (Z.eqb_spec nq (len ps)), (Z.eqb_spec (len ps - nq) 0); lia).
    eexists ps, nq, m, _. split; [done|]. split; [by exists r, l|done].
  - rewrite (is_full_spec _ Hcap _ _ _ _ Hinv), Hq.
    eexists ps, nq, m, _. split; [done|]. split; [by exists r, l|done].
Qed.

Lemma run_refines a b os : ∀ ps nq m,
  ring_at cap a b ps nq m →
  ∃ ps' nq' m' t,
    run (Some a) os m
    = Some (fst (queue_run cap os (drop (Z.to_nat nq) ps)), m', t)
    ∧ ring_at cap a b ps' nq' m'
    ∧ drop (Z.to_nat nq') ps' = snd (queue_run cap os (drop (Z.to_nat nq) ps))
    ∧ ∀ c, c ≠ a → c ≠ b → m' !! c = m !! c.
Proof.
  induction os as [|o os IH]; intros ps nq m Hat.
  { by exists ps, nq, m, []. }
  destruct (step_refines a b o ps nq m Hat)
    as (ps1 & nq1 & m1 & t1 & Hop & Hat1 & Hq1 & Hf1).
  destruct (IH ps1 nq1 m1 Hat1) as (ps2 & nq2 & m2 & t2 & Hrun & Hat2 & Hq2 & Hf2).
  simpl. unfold bind, ret. rewrite Hop. cbv beta iota. rewrite Hrun.
  destruct (queue_step cap o (drop (Z.to_nat nq) ps)) as [x q1] eqn:Hs.
  simpl in Hq1. rewrite Hq1 in *.
  destruct (queue_run cap os q1) as [xs q2] eqn:Hr. simpl in *.
  eexists ps2, nq2, m2, _. split; [done|]. split; [done|]. split; [done|].
  intros c Hca Hcb. rewrite Hf2 by done. by apply Hf1.
Qed.

(** The ring [spsc_ring_init] builds, with its two addresses. *)
Lemma init_ring_at (m : mem) :
  ∃ a b t,
    spsc_ring_init true true cap m
    = Some (Some a,
            <[a := Ring_block (mk_ring (Some b) cap (cap - 1) 0 0)]>
              (<[b := Int_array (replicate (Z.to_nat cap) 0)]> m), t)
    ∧ m !! a = None ∧ m !! b = None ∧ a ≠ b
    ∧ ring_at cap a b [] 0
        (<[a := Ring_block (mk_ring (Some b) cap (cap - 1) 0 0)]>
           (<[b := Int_array (replicate (Z.to_nat cap) 0)]> m)).
Proof.
  destruct (init_ok_spec _ Hcap m) as (a & b & t & Hi & Ha & Hb & Hab).
  exists a, b, t. split_and!; try done.
  eexists _, _. by apply fresh_ring_rep.
Qed.

End Refinement.

(** * Further properties of the ring *)

(** ** What construction does to the heap *)

(** X1: when [spsc_ring_init] returns [NULL], for whatever reason, the heap
    is what it was before the call: the ring structure allocated before a
    failed allocation of the array has been freed.  When it returns a ring,
    the heap has gained exactly two blocks, at addresses that were free: the
    ring structure and an array of [capacity] zeros. *)
Theorem init_heap_effect (ring_ok buf_ok : bool) (capacity : Z) (m : mem)
    (p : ptr) (m' : mem) (t : list event) :
  is_u32 capacity →
  spsc_ring_init ring_ok buf_ok capacity m = Some (p, m', t) →
  match p with
  | None => m' = m
  | Some a =>
      ∃ b,
        m !! a = None ∧ m !! b = None ∧ a ≠ b
        ∧ m' = <[a := Ring_block
                         (mk_ring (Some b) capacity (capacity - 1) 0 0)]>
                 (<[b := Int_array (replicate (Z.to_nat capacity) 0)]> m)
  end.
Proof.
  intros Hu Hi.
  destruct ((capacity =? 0) || negb (Z.land capacity (u32 (capacity - 1)) =? 0))
    eqn:Htest.
  { unfold spsc_ring_init in Hi. rewrite Htest in Hi. unfold ret in Hi.
    by simplify_eq. }
  assert (Hcap : valid_capacity capacity)
    by (split; [done|by apply (capacity_test _ Hu)]).
  destruct ring_ok; [destruct buf_ok|].
  - destruct (init_ok_spec _ Hcap m) as (a & b & t' & Hi' & Ha & Hb & Hab).
    rewrite Hi' in Hi. simplify_eq. by exists b.
  - destruct (init_buf_fail _ Hcap m) as (t' & Hi').
    rewrite Hi' in Hi. by simplify_eq.
  - rewrite (init_ring_fail _ Hcap) in Hi. by simplify_eq.
Qed.

Lemma init_heap_effect_witness :
  is_u32 4
  ∧ spsc_ring_init true false 4 ∅ = Some (None, ∅, [])
  ∧ (∅ : mem) = ∅.
Proof.
  assert (Hu : is_u32 4) by (unfold is_u32; lia).
  assert (Hi : spsc_ring_init true false 4 ∅ = Some (None, ∅, []))
    by (vm_compute; reflexivity).
  split; [exact Hu|]. split; [exact Hi|].
  exact (init_heap_effect true false 4 ∅ None ∅ [] Hu Hi).
Defined.

(** ** The ring as a bounded queue *)

(** X2: a program run on a fresh ring returns, call by call, what the
    reference queue of at most [capacity - 1] values returns for it,
    starting empty: the same return codes, the same popped values, the same
    answers to the two queries. *)
Theorem ring_refines_queue (capacity : Z) (m : mem) (os : list op) :
  valid_capacity capacity →
  ∃ ring m0 m1,
    returns (spsc_ring_init true true capacity) m (Some ring) m0
    ∧ returns (run (Some ring) os) m0 (fst (queue_run capacity os [])) m1.
Proof.
  intros Hcap.
  destruct (init_ring_at _ Hcap m) as (a & b & t & Hi & _ & _ & _ & Hat).
  destruct (run_refines _ Hcap a b os _ _ _ Hat)
    as (ps & nq & m1 & t1 & Hr & _).
  eexists a, _, m1. split; [by exists t|]. by exists t1.
Qed.

Lemma ring_refines_queue_witness :
  valid_capacity 4
  ∧ ∃ ring m0 m1,
      returns (spsc_ring_init true true 4) ∅ (Some ring) m0
      ∧ returns
          (run (Some ring)
             [Push 11; Push 22; Push 33; Is_full; Push 44; Pop (Some 0);
              Pop None; Is_empty])
          m0
          [Pushed 0; Pushed 0; Pushed 0; Answer 1; Pushed (-1);
           Popped 0 (Some 11); Popped 0 None; Answer 0]
          m1.
Proof.
  split; [valid_capacity_pow 2|].
  apply (ring_refines_queue 4 ∅
           [Push 11; Push 22; Push 33; Is_full; Push 44; Pop (Some 0);
            Pop None; Is_empty]).
  valid_capacity_pow 2.
Defined.

(** X3: after any program on a fresh ring, the number of pushes that
    succeeded minus the number of pops that succeeded is the unsigned
    32-bit difference of the cursors; [spsc_ring_is_empty] answers 1 exactly
    when it is 0 and [spsc_ring_is_full] answers 1 exactly when it is
    [capacity - 1].  With a capacity of 2 or more the two never answer 1
    together. *)
Theorem occupancy (capacity : Z) (m : mem) (os : list op) :
  valid_capacity capacity →
  ∃ ring m0 rs m1 t1 r,
    returns (spsc_ring_init true true capacity) m (Some ring) m0
    ∧ run (Some ring) os m0 = Some (rs, m1, t1)
    ∧ m1 !! ring = Some (Ring_block r)
    ∧ u32 (tail r - head r) = len (pushed os rs) - len (popped os rs)
    ∧ returns (spsc_ring_is_empty (Some ring)) m1
        (Z_of_bool (len (pushed os rs) - len (popped os rs) =? 0)) m1
    ∧ returns (spsc_ring_is_full (Some ring)) m1
        (Z_of_bool (len (pushed os rs) - len (popped os rs) =? capacity - 1))
        m1
    ∧ (2 ≤ capacity →
       ¬ (returns (spsc_ring_is_empty (Some ring)) m1 1 m1
          ∧ returns (spsc_ring_is_full (Some ring)) m1 1 m1)).
Proof.
  intros Hcap.
  destruct (init_ok_inv _ Hcap m) as (a & m0 & t0 & Hi & Hinv).
  destruct (run_spec _ Hcap a os _ _ _ Hinv)
    as (rs & m1 & t1 & Hr & Hinv1 & _).
  simpl in Hinv1. rewrite Z.add_0_l in Hinv1.
  pose proof (is_empty_spec _ Hcap _ _ _ _ Hinv1) as He.
  pose proof (is_full_spec _ Hcap _ _ _ _ Hinv1) as Hf.
  destruct Hinv1 as (r & b & l & []).
  exists a, m0, rs, m1, t1, r. split; [by exists t0|]. split; [done|].
  split; [done|]. pose proof (cap_lt _ Hcap). split; [|split; [|split]].
  - rewrite rep_head0, rep_tail0, u32_sub. apply u32_small. unfold is_u32. lia.
  - eexists. rewrite He. do 3 f_equal.
    destruct (Z.eqb_spec (len (popped os rs)) (len (pushed os rs))),
      (Z.eqb_spec (len (pushed os rs) - len (popped os rs)) 0); lia.
  - by eexists.
  - intros H2 [[te He1] [tf Hf1]]. rewrite He in He1. rewrite Hf in Hf1.
    destruct (Z.eqb_spec (len (popped os rs)) (len (pushed os rs)));
      [|done].
    destruct (Z.eqb_spec (len (pushed os rs) - len (popped os rs))
                (capacity - 1)); [lia|done].
Qed.

Lemma occupancy_witness :
  valid_capacity 4
  ∧ ∃ ring m0 rs m1 t1 r,
      returns (spsc_ring_init true true 4) ∅ (Some ring) m0
      ∧ run (Some ring) [Push 1; Push 2; Pop None; Push 3; Push 4] m0
        = Some (rs, m1, t1)
      ∧ m1 !! ring = Some (Ring_block r)
      ∧ u32 (tail r - head r)
        = len (pushed [Push 1; Push 2; Pop None; Push 3; Push 4] rs)
          - len (popped [Push 1; Push 2; Pop None; Push 3; Push 4] rs)
      ∧ returns (spsc_ring_is_empty (Some ring)) m1
          (Z_of_bool
             (len (pushed [Push 1; Push 2; Pop None; Push 3; Push 4] rs)
              - len (popped [Push 1; Push 2; Pop None; Push 3; Push 4] rs)
              =? 0)) m1
      ∧ returns (spsc_ring_is_full (Some ring)) m1
          (Z_of_bool
             (len (pushed [Push 1; Push 2; Pop None; Push 3; Push 4] rs)
              - len (popped [Push 1; Push 2; Pop None; Push 3; Push 4] rs)
              =? 4 - 1)) m1
      ∧ (2 ≤ 4 →
         ¬ (returns (spsc_ring_is_empty (Some ring)) m1 1 m1
            ∧ returns (spsc_ring_is_full (Some ring)) m1 1 m1)).
Proof.
  split; [valid_capacity_pow 2|].
  apply (occupancy 4 ∅ [Push 1; Push 2; Pop None; Push 3; Push 4]).
  valid_capacity_pow 2.
Defined.

(** ** What the calls touch *)

(** X4: on any heap, a push that returns leaves [head], [size], [mask] and
    [buf] of the ring and every block other than the ring structure and its
    array as they were.  Either it returned -1 and the heap is unchanged, or
    it returned 0, [tail] has advanced by one in 32-bit arithmetic, and the
    array differs from before in the slot [tail & mask] only, which holds
    the value pushed. *)
Theorem push_footprint (m : mem) (a : addr) (r : spsc_ring) (fd rc : Z)
    (m' : mem) (t : list event) :
  m !! a = Some (Ring_block r) →
  spsc_ring_push (Some a) fd m = Some (rc, m', t) →
  ∃ r',
    m' !! a = Some (Ring_block r')
    ∧ head r' = head r ∧ size r' = size r ∧ mask r' = mask r
    ∧ buf r' = buf r
    ∧ (∀ c, c ≠ a → Some c ≠ buf r → m' !! c = m !! c)
    ∧ (rc = -1 ∧ m' = m
       ∨ rc = 0 ∧ tail r' = u32 (tail r + 1)
         ∧ ∃ b l,
             buf r = Some b ∧ m !! b = Some (Int_array l)
             ∧ m' !! b
               = Some (Int_array
                         (<[Z.to_nat (Z.land (tail r) (mask r)) := fd]> l))).
Proof.
  intros Ha Hp.
  destruct (push_cases _ _ _ _ _ _ _ Ha Hp)
    as [(-> & -> & _)|(b & l & -> & Hb & Hba & Hl & _ & -> & _)].
  - exists r. split_and!; auto.
  - exists (set_cursor Tail (u32 (tail r + 1)) r).
    split; [apply lookup_insert_eq|]. split_and!; try done.
    + intros c Hca Hcb. rewrite !lookup_insert_ne; congruence.
    + right. split_and!; try done. exists b, l. split_and!; try done.
      rewrite lookup_insert_ne by done. apply lookup_insert_eq.
Qed.

Lemma push_footprint_witness :
  heap_of (mk_ring (Some 2%positive) 4 3 0 0) [0; 0; 0; 0] !! 1%positive
  = Some (Ring_block (mk_ring (Some 2%positive) 4 3 0 0))
  ∧ spsc_ring_push (Some 1%positive) 11
      (heap_of (mk_ring (Some 2%positive) 4 3 0 0) [0; 0; 0; 0])
    = Some (0, heap_of (mk_ring (Some 2%positive) 4 3 0 1) [11; 0; 0; 0],
            [Ev_load Head memory_order_relaxed;
             Ev_load Tail memory_order_acquire;
             Ev_load Tail memory_order_relaxed;
             Ev_store Tail memory_order_release 1])
  ∧ ∃ r',
      heap_of (mk_ring (Some 2%positive) 4 3 0 1) [11; 0; 0; 0] !! 1%positive
      = Some (Ring_block r')
      ∧ head r' = 0 ∧ size r' = 4 ∧ mask r' = 3.
Proof.
  assert (Ha : heap_of (mk_ring (Some 2%positive) 4 3 0 0) [0; 0; 0; 0]
               !! 1%positive
               = Some (Ring_block (mk_ring (Some 2%positive) 4 3 0 0)))
    by reflexivity.
  assert (Hp : spsc_ring_push (Some 1%positive) 11
                 (heap_of (mk_ring (Some 2%positive) 4 3 0 0) [0; 0; 0; 0])
               = Some (0,
                       heap_of (mk_ring (Some 2%positive) 4 3 0 1)
                         [11; 0; 0; 0],
                       [Ev_load Head memory_order_relaxed;
                        Ev_load Tail memory_order_acquire;
                        Ev_load Tail memory_order_relaxed;
                        Ev_store Tail memory_order_release 1]))
    by (vm_compute; reflexivity).
  split; [exact Ha|]. split; [exact Hp|].
  destruct (push_footprint _ _ _ _ _ _ _ Ha Hp)
    as (r' & Ha' & Hh & Hs & Hm & _).
  exists r'. simpl in Hh, Hs, Hm. by split_and!.
Defined.

(** X5: on any heap, a pop that returns leaves [tail], [size], [mask] and
    [buf] of the ring and every other block, the array included, as they
    were.  Either it returned -1 with heap and output location unchanged, or
    it returned 0 and [head] has advanced by one in 32-bit arithmetic; then
    a supplied output location holds the slot [head & mask] of the array,
    and a null one stays null. *)
Theorem pop_footprint (m : mem) (a : addr) (r : spsc_ring)
    (out_fd : option Z) (rc : Z) (out : option Z) (m' : mem)
    (t : list event) :
  m !! a = Some (Ring_block r) →
  spsc_ring_pop (Some a) out_fd m = Some ((rc, out), m', t) →
  ∃ r',
    m' !! a = Some (Ring_block r')
    ∧ tail r' = tail r ∧ size r' = size r ∧ mask r' = mask r
    ∧ buf r' = buf r
    ∧ (∀ c, c ≠ a → m' !! c = m !! c)
    ∧ (rc = -1 ∧ out = out_fd ∧ m' = m
       ∨ rc = 0 ∧ head r' = u32 (head r + 1)
         ∧ match out_fd with
           | None => out = None
           | Some _ =>
               ∃ b l v,
                 buf r = Some b ∧ m !! b = Some (Int_array l)
                 ∧ l !! Z.to_nat (Z.land (head r) (mask r)) = Some v
                 ∧ out = Some v
           end).
Proof.
  intros Ha Hp.
  destruct (pop_cases _ _ _ _ _ _ _ _ Ha Hp)
    as [(-> & -> & -> & _)|(-> & -> & _ & Hout)].
  - exists r. split_and!; auto.
  - exists (set_cursor Head (u32 (head r + 1)) r).
    split; [apply lookup_insert_eq|]. split_and!; try done.
    + intros c Hca. by rewrite lookup_insert_ne.
    + by right.
Qed.

Lemma pop_footprint_witness :
  heap_of (mk_ring (Some 2%positive) 4 3 0 1) [11; 0; 0; 0] !! 1%positive
  = Some (Ring_block (mk_ring (Some 2%positive) 4 3 0 1))
  ∧ spsc_ring_pop (Some 1%positive) (Some 0)
      (heap_of (mk_ring (Some 2%positive) 4 3 0 1) [11; 0; 0; 0])
    = Some ((0, Some 11),
            heap_of (mk_ring (Some 2%positive) 4 3 1 1) [11; 0; 0; 0],
            [Ev_load Head memory_order_relaxed;
             Ev_load Head memory_order_relaxed;
             Ev_load Tail memory_order_acquire;
             Ev_store Head memory_order_release 1])
  ∧ ∃ r',
      heap_of (mk_ring (Some 2%positive) 4 3 1 1) [11; 0; 0; 0] !! 1%positive
      = Some (Ring_block r')
      ∧ tail r' = 1 ∧ size r' = 4 ∧ mask r' = 3.
Proof.
  assert (Ha : heap_of (mk_ring (Some 2%positive) 4 3 0 1) [11; 0; 0; 0]
               !! 1%positive
               = Some (Ring_block (mk_ring (Some 2%positive) 4 3 0 1)))
    by reflexivity.
  assert (Hp : spsc_ring_pop (Some 1%positive) (Some 0)
                 (heap_of (mk_ring (Some 2%positive) 4 3 0 1) [11; 0; 0; 0])
               = Some ((0, Some 11),
                       heap_of (mk_ring (Some 2%positive) 4 3 1 1)
                         [11; 0; 0; 0],
                       [Ev_load Head memory_order_relaxed;
                        Ev_load Head memory_order_relaxed;
                        Ev_load Tail memory_order_acquire;
                        Ev_store Head memory_order_release 1]))
    by (vm_compute; reflexivity).
  split; [exact Ha|]. split; [exact Hp|].
  destruct (pop_footprint _ _ _ _ _ _ _ _ Ha Hp)
    as (r' & Ha' & Hh & Hs & Hm & _).
  exists r'. simpl in Hh, Hs, Hm. by split_and!.
Defined.

(** X6: a pop with a null [out_fd] does to the ring what a pop with an
    output location does: on any heap on which the latter returns, the
    former returns the same code, leaves the same heap and makes the same
    atomic accesses. *)
Theorem pop_null_same_effect (ring : ptr) (old : Z) (m : mem) (rc : Z)
    (out : option Z) (m' : mem) (t : list event) :
  spsc_ring_pop ring (Some old) m = Some ((rc, out), m', t) →
  spsc_ring_pop ring None m = Some ((rc, None), m', t).
Proof.
  intros Hp. destruct ring as [a|]; [|done].
  destruct (m !! a) as [[r|l]|] eqn:Ha;
    [|by destruct (no_ring_undefined m a 0 (Some old)) as (_ & Hn & _);
        [intros r'; congruence|congruence]..].
  rewrite (pop_eq m a r _ Ha) in Hp. rewrite (pop_eq m a r _ Ha).
  destruct (Z.land (head r) (mask r) =? Z.land (tail r) (mask r));
    [by simplify_eq|].
  destruct (buf r) as [b|]; [|done].
  destruct (m !! b) as [[r'|l]|]; [done| |done].
  destruct ((0 <=? Z.land (head r) (mask r))
            && (Z.land (head r) (mask r) <? len l)); [|done].
  destruct (l !! Z.to_nat (Z.land (head r) (mask r))); [|done].
  by simplify_eq.
Qed.

Lemma pop_null_same_effect_witness :
  spsc_ring_pop (Some 1%positive) (Some 0)
    (heap_of (mk_ring (Some 2%positive) 4 3 0 1) [11; 0; 0; 0])
  = Some ((0, Some 11),
          heap_of (mk_ring (Some 2%positive) 4 3 1 1) [11; 0; 0; 0],
          [Ev_load Head memory_order_relaxed;
           Ev_load Head memory_order_relaxed;
           Ev_load Tail memory_order_acquire;
           Ev_store Head memory_order_release 1])
  ∧ spsc_ring_pop (Some 1%positive) None
      (heap_of (mk_ring (Some 2%positive) 4 3 0 1) [11; 0; 0; 0])
    = Some ((0, None),
            heap_of (mk_ring (Some 2%positive) 4 3 1 1) [11; 0; 0; 0],
            [Ev_load Head memory_order_relaxed;
             Ev_load Head memory_order_relaxed;
             Ev_load Tail memory_order_acquire;
             Ev_store Head memory_order_release 1]).
Proof.
  assert (Hp : spsc_ring_pop (Some 1%positive) (Some 0)
                 (heap_of (mk_ring (Some 2%positive) 4 3 0 1) [11; 0; 0; 0])
               = Some ((0, Some 11),
                       heap_of (mk_ring (Some 2%positive) 4 3 1 1)
                         [11; 0; 0; 0],
                       [Ev_load Head memory_order_relaxed;
                        Ev_load Head memory_order_relaxed;
                        Ev_load Tail memory_order_acquire;
                        Ev_store Head memory_order_release 1]))
    by (vm_compute; reflexivity).
  split; [exact Hp|].
  exact (pop_null_same_effect _ _ _ _ _ _ _ Hp).
Defined.

(** X7: on any heap and any ring pointer, null included, the only store
    [spsc_ring_push] makes to a cursor is a release store to [tail], the
    only one [spsc_ring_pop] makes is a release store to [head], and the
    two queries make no store and leave the heap as it is. *)
Theorem store_discipline (ring : ptr) (m : mem) (fd : Z) (out_fd : option Z) :
  (∀ x m' t, spsc_ring_push ring fd m = Some (x, m', t) →
     Forall (stores_only Tail) t)
  ∧ (∀ x m' t, spsc_ring_pop ring out_fd m = Some (x, m', t) →
       Forall (stores_only Head) t)
  ∧ (∀ x m' t, spsc_ring_is_empty ring m = Some (x, m', t) →
       Forall is_load t ∧ m' = m)
  ∧ (∀ x m' t, spsc_ring_is_full ring m = Some (x, m', t) →
       Forall is_load t ∧ m' = m).
Proof.
  destruct ring as [a|].
  2:{ split_and!; intros x m' t H; try done.
      unfold spsc_ring_push, is_null, ret in H. simplify_eq. constructor. }
  destruct (m !! a) as [[r|l]|] eqn:Ha.
  2,3: destruct (no_ring_undefined m a fd out_fd) as (Hp & Hq & He & Hf & _);
       [intros r'; congruence|];
       rewrite Hp, Hq, He, Hf; split_and!; intros; done.
  split_and!; intros x m' t H.
  - destruct (push_cases _ _ _ _ _ _ _ Ha H)
      as [(_ & _ & ->)|(b & l & _ & _ & _ & _ & _ & _ & ->)];
      repeat constructor.
  - destruct x as [rc out].
    destruct (pop_cases _ _ _ _ _ _ _ _ Ha H) as [(_ & _ & _ & ->)|(_ & _ & -> & _)];
      repeat constructor.
  - rewrite (is_empty_eq _ _ _ Ha) in H. simplify_eq.
    split; [repeat constructor|done].
  - rewrite (is_full_eq _ _ _ Ha) in H. simplify_eq.
    split; [repeat constructor|done].
Qed.

Lemma store_discipline_witness :
  spsc_ring_push (Some 1%positive) 11
    (heap_of (mk_ring (Some 2%positive) 4 3 0 0) [0; 0; 0; 0])
  = Some (0, heap_of (mk_ring (Some 2%positive) 4 3 0 1) [11; 0; 0; 0],
          [Ev_load Head memory_order_relaxed;
           Ev_load Tail memory_order_acquire;
           Ev_load Tail memory_order_relaxed;
           Ev_store Tail memory_order_release 1])
  ∧ Forall (stores_only Tail)
      [Ev_load Head memory_order_relaxed;
       Ev_load Tail memory_order_acquire;
       Ev_load Tail memory_order_relaxed;
       Ev_store Tail memory_order_release 1].
Proof.
  assert (Hp : spsc_ring_push (Some 1%positive) 11
                 (heap_of (mk_ring (Some 2%positive) 4 3 0 0) [0; 0; 0; 0])
               = Some (0,
                       heap_of (mk_ring (Some 2%positive) 4 3 0 1)
                         [11; 0; 0; 0],
                       [Ev_load Head memory_order_relaxed;
                        Ev_load Tail memory_order_acquire;
                        Ev_load Tail memory_order_relaxed;
                        Ev_store Tail memory_order_release 1]))
    by (vm_compute; reflexivity).
  split; [exact Hp|].
  exact (proj1 (store_discipline (Some 1%positive)
                  (heap_of (mk_ring (Some 2%positive) 4 3 0 0) [0; 0; 0; 0])
                  11 None) _ _ _ Hp).
Defined.

(** ** Draining *)

(** X8: after any program on a fresh ring, the values still in the ring are
    those pushed with success and not yet popped: popping once for each of
    them succeeds every time and hands them out oldest first, and the ring
    is then empty. *)
Theorem drain (capacity : Z) (m : mem) (os : list op) :
  valid_capacity capacity →
  ∃ ring m0 rs m1 t1 m2,
    returns (spsc_ring_init true true capacity) m (Some ring) m0
    ∧ run (Some ring) os m0 = Some (rs, m1, t1)
    ∧ returns
        (run (Some ring)
           ((λ _, Pop (Some 0))
              <$> drop (length (popped os rs)) (pushed os rs)))
        m1
        ((λ v, Popped 0 (Some v))
           <$> drop (length (popped os rs)) (pushed os rs))
        m2
    ∧ returns (spsc_ring_is_empty (Some ring)) m2 1 m2.
Proof.
  intros Hcap.
  destruct (init_ok_inv _ Hcap m) as (a & m0 & t0 & Hi & Hinv).
  destruct (run_spec _ Hcap a os _ _ _ Hinv)
    as (rs & m1 & t1 & Hr & Hinv1 & _).
  simpl in Hinv1. rewrite Z.add_0_l in Hinv1.
  pose proof Hinv1 as (r & b & l & [_ _ _ _ _ _ _ _ Hcount _ _]).
  set (n := length (popped os rs)) in *.
  assert (Hn : length (take n (pushed os rs)) = n)
    by (rewrite length_take; lia).
  assert (Hinv1' : ring_inv capacity a
                     (take n (pushed os rs) ++ drop n (pushed os rs))
                     (len (take n (pushed os rs))) m1)
    by (by rewrite take_drop, Hn).
  destruct (run_pops _ Hcap a _ _ m1 Hinv1') as (m2 & t2 & Hr2 & Hinv2).
  exists a, m0, rs, m1, t1, m2. split; [by exists t0|]. split; [done|].
  split; [by exists t2|].
  eexists. rewrite (is_empty_spec _ Hcap _ _ _ _ Hinv2).
  rewrite length_app, Nat2Z.inj_add, Z.eqb_refl. done.
Qed.

Lemma drain_witness :
  valid_capacity 4
  ∧ ∃ ring m0 rs m1 t1 m2,
      returns (spsc_ring_init true true 4) ∅ (Some ring) m0
      ∧ run (Some ring) [Push 1; Push 2; Pop None; Push 3] m0
        = Some (rs, m1, t1)
      ∧ returns
          (run (Some ring)
             ((λ _, Pop (Some 0))
                <$> drop (length (popped [Push 1; Push 2; Pop None; Push 3] rs))
                      (pushed [Push 1; Push 2; Pop None; Push 3] rs)))
          m1
          ((λ v, Popped 0 (Some v))
             <$> drop (length (popped [Push 1; Push 2; Pop None; Push 3] rs))
                   (pushed [Push 1; Push 2; Pop None; Push 3] rs))
          m2
      ∧ returns (spsc_ring_is_empty (Some ring)) m2 1 m2.
Proof.
  split; [valid_capacity_pow 2|].
  apply (drain 4 ∅ [Push 1; Push 2; Pop None; Push 3]).
  valid_capacity_pow 2.
Defined.

(** ** The life of a ring *)

Lemma destroy_eq (m : mem) a r b l :
  m !! a = Some (Ring_block r) →
  buf r = Some b →
  m !! b = Some (Int_array l) →
  spsc_ring_destroy (@Some ptr (Some a)) m
  = Some (Some NULL, delete a (delete b m), []).
Proof.
  intros Ha Hbuf Hb. assert (Hab : a ≠ b) by (intros ->; congruence).
  unfold spsc_ring_destroy. unfold_prims. rewrite Ha. cbv beta iota.
  rewrite Hbuf, Hb. cbv beta iota. by rewrite lookup_delete_ne, Ha by done.
Qed.

Lemma destroy_ring_at cap a b ps nq (m : mem) :
  ring_at cap a b ps nq m →
  spsc_ring_destroy (@Some ptr (Some a)) m
  = Some (Some NULL, delete a (delete b m), []).
Proof. intros (r & l & []). by eapply destroy_eq. Qed.

(** X9: constructing a ring, running any program on it and destroying it
    leaves the heap exactly as it was before the construction: nothing is
    leaked and no block of the caller has been written. *)
Theorem lifecycle_restores_heap (capacity : Z) (m : mem) (os : list op) :
  valid_capacity capacity →
  returns
    (ring <- spsc_ring_init true true capacity ;;
     _ <- run ring os ;;
     spsc_ring_destroy (Some ring))
    m (Some NULL) m.
Proof.
  intros Hcap.
  destruct (init_ring_at _ Hcap m) as (a & b & t & Hi & Ha & Hb & Hab & Hat).
  destruct (run_refines _ Hcap a b os _ _ _ Hat)
    as (ps & nq & m1 & t1 & Hr & Hat1 & _ & Hframe).
  unfold returns, bind. rewrite Hi. cbv beta iota. rewrite Hr. cbv beta iota.
  eexists. rewrite (destroy_ring_at _ _ _ _ _ _ Hat1).
  assert (Hm : delete a (delete b m1) = m).
  { apply map_eq. intros c.
    destruct (decide (c = a)) as [->|Hca]; [by rewrite lookup_delete_eq|].
    rewrite lookup_delete_ne by done.
    destruct (decide (c = b)) as [->|Hcb]; [by rewrite lookup_delete_eq|].
    rewrite lookup_delete_ne by done. rewrite Hframe by done.
    by rewrite !lookup_insert_ne. }
  by rewrite Hm.
Qed.

Lemma lifecycle_restores_heap_witness :
  valid_capacity 4
  ∧ returns
      (ring <- spsc_ring_init true true 4 ;;
       _ <- run ring [Push 11; Push 22; Pop None] ;;
       spsc_ring_destroy (Some ring))
      ∅ (Some NULL) ∅.
Proof.
  split; [valid_capacity_pow 2|].
  apply (lifecycle_restores_heap 4 ∅ [Push 11; Push 22; Pop None]).
  valid_capacity_pow 2.
Defined.

(** X10: [spsc_ring_destroy] clears the handle it is given and no other.
    Through a copy of the pointer kept elsewhere the ring is gone: after
    the destruction every function is undefined on the old address,
    a second [spsc_ring_destroy] included. *)
Theorem use_after_destroy (capacity : Z) (m : mem) (os : list op) (fd : Z)
    (out_fd : option Z) :
  valid_capacity capacity →
  ∃ ring m0 rs m1 t1 m2,
    returns (spsc_ring_init true true capacity) m (Some ring) m0
    ∧ run (Some ring) os m0 = Some (rs, m1, t1)
    ∧ returns (spsc_ring_destroy (Some (Some ring))) m1 (Some NULL) m2
    ∧ spsc_ring_push (Some ring) fd m2 = None
    ∧ spsc_ring_pop (Some ring) out_fd m2 = None
    ∧ spsc_ring_is_empty (Some ring) m2 = None
    ∧ spsc_ring_is_full (Some ring) m2 = None
    ∧ spsc_ring_destroy (Some (Some ring)) m2 = None.
Proof.
  intros Hcap.
  destruct (init_ring_at _ Hcap m) as (a & b & t & Hi & Ha & Hb & Hab & Hat).
  destruct (run_refines _ Hcap a b os _ _ _ Hat)
    as (ps & nq & m1 & t1 & Hr & Hat1 & _ & _).
  eexists a, _, _, m1, t1, (delete a (delete b m1)).
  split; [by exists t|]. split; [done|].
  split; [exists []; by apply (destroy_ring_at _ _ _ _ _ _ Hat1)|].
  apply no_ring_undefined. intros r. by rewrite lookup_delete_eq.
Qed.

Lemma use_after_destroy_witness :
  valid_capacity 4
  ∧ ∃ ring m0 rs m1 t1 m2,
      returns (spsc_ring_init true true 4) ∅ (Some ring) m0
      ∧ run (Some ring) [Push 11] m0 = Some (rs, m1, t1)
      ∧ returns (spsc_ring_destroy (Some (Some ring))) m1 (Some NULL) m2
      ∧ spsc_ring_push (Some ring) 22 m2 = None
      ∧ spsc_ring_pop (Some ring) (Some 0) m2 = None
      ∧ spsc_ring_is_empty (Some ring) m2 = None
      ∧ spsc_ring_is_full (Some ring) m2 = None
      ∧ spsc_ring_destroy (Some (Some ring)) m2 = None.
Proof.
  split; [valid_capacity_pow 2|].
  apply (use_after_destroy 4 ∅ [Push 11] 22 (Some 0)).
  valid_capacity_pow 2.
Defined.

(** ** Two rings *)

Lemma run2_refines cap1 cap2 a1 b1 a2 b2 os :
  valid_capacity cap1 →
  valid_capacity cap2 →
  a1 ≠ a2 → a1 ≠ b2 → b1 ≠ a2 → b1 ≠ b2 →
  ∀ ps1 nq1 ps2 nq2 m,
    ring_at cap1 a1 b1 ps1 nq1 m →
    ring_at cap2 a2 b2 ps2 nq2 m →
    ∃ rs m' t,
      run2 (Some a1) (Some a2) os m = Some (rs, m', t)
      ∧ results_on On_first os rs
        = fst (queue_run cap1 (calls_on On_first os)
                 (drop (Z.to_nat nq1) ps1))
      ∧ results_on On_second os rs
        = fst (queue_run cap2 (calls_on On_second os)
                 (drop (Z.to_nat nq2) ps2)).
Proof.
  intros Hcap1 Hcap2 H12 H1b2 Hb12 Hb1b2.
  induction os as [|[s o] os IH]; intros ps1 nq1 ps2 nq2 m Hat1 Hat2.
  { by exists [], m, []. }
  destruct s; simpl; unfold bind, ret.
  - destruct (step_refines _ Hcap1 a1 b1 o ps1 nq1 m Hat1)
      as (ps1' & nq1' & m1 & t1 & Hop & Hat1' & Hq & Hf).
    assert (Hat2' : ring_at cap2 a2 b2 ps2 nq2 m1)
      by (apply (ring_at_frame _ _ _ _ _ m); [done|by apply Hf..]).
    destruct (IH _ _ _ _ _ Hat1' Hat2') as (rs & m' & t & Hrun & Hr1 & Hr2).
    rewrite Hop. cbv beta iota. rewrite Hrun.
    eexists _, _, _. split; [done|]. simpl. rewrite Hr1, Hr2, Hq.
    destruct (queue_step cap1 o (drop (Z.to_nat nq1) ps1)) as [x q1].
    simpl. by destruct (queue_run cap1 (calls_on On_first os) q1).
  - destruct (step_refines _ Hcap2 a2 b2 o ps2 nq2 m Hat2)
      as (ps2' & nq2' & m1 & t1 & Hop & Hat2' & Hq & Hf).
    assert (Hat1' : ring_at cap1 a1 b1 ps1 nq1 m1)
      by (apply (ring_at_frame _ _ _ _ _ m); [done|by apply Hf..]).
    destruct (IH _ _ _ _ _ Hat1' Hat2') as (rs & m' & t & Hrun & Hr1 & Hr2).
    rewrite Hop. cbv beta iota. rewrite Hrun.
    eexists _, _, _. split; [done|]. simpl. rewrite Hr1, Hr2, Hq.
    destruct (queue_step cap2 o (drop (Z.to_nat nq2) ps2)) as [x q1].
    simpl. by destruct (queue_run cap2 (calls_on On_second os) q1).
Qed.

(** X11: two rings constructed one after the other do not interfere.  In
    any program that addresses its calls to one or the other, in any
    interleaving, each ring answers the calls addressed to it as the
    reference queue of its own capacity answers them, whatever is done to
    the other ring in between. *)
Theorem two_rings_independent (cap1 cap2 : Z) (m : mem)
    (os : list (side * op)) :
  valid_capacity cap1 →
  valid_capacity cap2 →
  ∃ r1 r2 m0 m1 rs m2,
    returns (spsc_ring_init true true cap1) m (Some r1) m0
    ∧ returns (spsc_ring_init true true cap2) m0 (Some r2) m1
    ∧ r1 ≠ r2
    ∧ returns (run2 (Some r1) (Some r2) os) m1 rs m2
    ∧ results_on On_first os rs
      = fst (queue_run cap1 (calls_on On_first os) [])
    ∧ results_on On_second os rs
      = fst (queue_run cap2 (calls_on On_second os) []).
Proof.
  intros Hcap1 Hcap2.
  destruct (init_ring_at _ Hcap1 m)
    as (a1 & b1 & t1 & Hi1 & Ha1 & Hb1 & Hab1 & Hat1).
  destruct (init_ring_at _ Hcap2
              (<[a1 := Ring_block (mk_ring (Some b1) cap1 (cap1 - 1) 0 0)]>
                 (<[b1 := Int_array (replicate (Z.to_nat cap1) 0)]> m)))
    as (a2 & b2 & t2 & Hi2 & Ha2 & Hb2 & Hab2 & Hat2).
  assert (H12 : a1 ≠ a2) by (intros <-; by rewrite lookup_insert_eq in Ha2).
  assert (H1b2 : a1 ≠ b2) by (intros <-; by rewrite lookup_insert_eq in Hb2).
  assert (Hb12 : b1 ≠ a2).
  { intros <-. by rewrite lookup_insert_ne, lookup_insert_eq in Ha2. }
  assert (Hb1b2 : b1 ≠ b2).
  { intros <-. by rewrite lookup_insert_ne, lookup_insert_eq in Hb2. }
  assert (Hat1' : ring_at cap1 a1 b1 [] 0
            (<[a2 := Ring_block (mk_ring (Some b2) cap2 (cap2 - 1) 0 0)]>
               (<[b2 := Int_array (replicate (Z.to_nat cap2) 0)]>
                  (<[a1 := Ring_block (mk_ring (Some b1) cap1 (cap1 - 1) 0 0)]>
                     (<[b1 := Int_array (replicate (Z.to_nat cap1) 0)]> m))))).
  { eapply ring_at_frame; [exact Hat1|..];
      by rewrite (lookup_insert_ne _ a2), (lookup_insert_ne _ b2). }
  destruct (run2_refines cap1 cap2 a1 b1 a2 b2 os Hcap1 Hcap2 H12 H1b2 Hb12
              Hb1b2 _ _ _ _ _ Hat1' Hat2) as (rs & m2 & t & Hrun & Hr1 & Hr2).
  eexists a1, a2, _, _, rs, m2. split; [by exists t1|].
  split; [by exists t2|]. split; [done|]. split; [by exists t|]. done.
Qed.

Lemma two_rings_independent_witness :
  valid_capacity 4
  ∧ valid_capacity 2
  ∧ ∃ r1 r2 m0 m1 rs m2,
      returns (spsc_ring_init true true 4) ∅ (Some r1) m0
      ∧ returns (spsc_ring_init true true 2) m0 (Some r2) m1
      ∧ r1 ≠ r2
      ∧ returns
          (run2 (Some r1) (Some r2)
             [(On_first, Push 1); (On_second, Push 7); (On_first, Push 2);
              (On_second, Push 8); (On_first, Pop (Some 0));
              (On_second, Pop (Some 0))])
          m1 rs m2
      ∧ results_on On_first
          [(On_first, Push 1); (On_second, Push 7); (On_first, Push 2);
           (On_second, Push 8); (On_first, Pop (Some 0));
           (On_second, Pop (Some 0))] rs
        = [Pushed 0; Pushed 0; Popped 0 (Some 1)]
      ∧ results_on On_second
          [(On_first, Push 1); (On_second, Push 7); (On_first, Push 2);
           (On_second, Push 8); (On_first, Pop (Some 0));
           (On_second, Pop (Some 0))] rs
        = [Pushed 0; Pushed (-1); Popped 0 (Some 7)].
Proof.
  split; [valid_capacity_pow 2|]. split; [valid_capacity_pow 1|].
  apply (two_rings_independent 4 2 ∅
           [(On_first, Push 1); (On_second, Push 7); (On_first, Push 2);
            (On_second, Push 8); (On_first, Pop (Some 0));
            (On_second, Pop (Some 0))]).
  - valid_capacity_pow 2.
  - valid_capacity_pow 1.
Defined.

(** * The ring seen by its callers

    The calls, on a ring the caller owns, in terms of the queue it holds.
    With these the programs that use the ring are followed call by call. *)

Lemma returns_ret {A} (x : A) (m : mem) : returns (ret x) m x m.
Proof. by exists []. Qed.

Lemma returns_bind {A B} (c : M A) (k : A → M B) (m : mem) x m1 y m2 :
  returns c m x m1 → returns (k x) m1 y m2 → returns (bind c k) m y m2.
Proof.
  intros [t1 H1] [t2 H2]. exists (t1 ++ t2). unfold bind. by rewrite H1, H2.
Qed.

Lemma returns_bind_ret {A B} (x : A) (k : A → M B) (m : mem) y m' :
  returns (k x) m y m' → returns (bind (ret x) k) m y m'.
Proof. intros H. eapply returns_bind; [apply returns_ret|done]. Qed.

Lemma returns_bind_assoc {A B C} (c : M A) (k1 : A → M B) (k2 : B → M C)
    (m : mem) y m' :
  returns (bind c (λ x, bind (k1 x) k2)) m y m' →
  returns (bind (bind c k1) k2) m y m'.
Proof.
  intros [t H]. unfold returns, bind in *.
  destruct (c m) as [[[x m1] t1]|]; [|done].
  destruct (k1 x m1) as [[[z m2] t2]|]; [|done].
  destruct (k2 z m2) as [[[w m3] t3]|]; [|done].
  simplify_eq. by eexists.
Qed.

Lemma init_owns cap (base : mem) :
  valid_capacity cap →
  ∃ a b m,
    returns (spsc_ring_init true true cap) base (Some a) m
    ∧ owns cap a b [] base m.
Proof.
  intros Hcap.
  destruct (init_ring_at _ Hcap base) as (a & b & t & Hi & Ha & Hb & Hab & Hat).
  eexists a, b, _. split; [by exists t|]. split_and!; try done.
  - by exists [], 0.
  - intros c Hca Hcb. by rewrite !lookup_insert_ne.
Qed.

Lemma step_owns cap a b q base m o :
  valid_capacity cap →
  owns cap a b q base m →
  ∃ m',
    returns (run_op (Some a) o) m (fst (queue_step cap o q)) m'
    ∧ owns cap a b (snd (queue_step cap o q)) base m'.
Proof.
  intros Hcap (Ha & Hb & (ps & nq & Hat & <-) & Hf).
  destruct (step_refines _ Hcap a b o ps nq m Hat)
    as (ps' & nq' & m' & t & Hop & Hat' & Hq & Hf').
  exists m'. split; [by exists t|]. split_and!; try done.
  - by exists ps', nq'.
  - intros c Hca Hcb. rewrite Hf' by done. by apply Hf.
Qed.

Lemma push_owns cap a b q base m fd :
  valid_capacity cap →
  owns cap a b q base m →
  ∃ m',
    returns (spsc_ring_push (Some a) fd) m
      (if len q <? cap - 1 then 0 else -1) m'
    ∧ owns cap a b (if len q <? cap - 1 then q ++ [fd] else q) base m'.
Proof.
  intros Hcap Ho.
  destruct (step_owns _ _ _ _ _ _ (Push fd) Hcap Ho) as (m' & [t Hr] & Ho').
  exists m'. unfold run_op, bind, ret in Hr. simpl in Hr, Ho'.
  destruct (spsc_ring_push (Some a) fd m) as [[[rc m1] t1]|] eqn:Hp; [|done].
  destruct (len q <? cap - 1); simplify_eq/=; (split; [by exists t1|done]).
Qed.

Lemma pop_owns cap a b q base m out_fd :
  valid_capacity cap →
  owns cap a b q base m →
  ∃ m',
    returns (spsc_ring_pop (Some a) out_fd) m
      (match q with
       | [] => (-1, out_fd)
       | v :: _ => (0, deliver v out_fd)
       end) m'
    ∧ owns cap a b (drop 1 q) base m'.
Proof.
  intros Hcap Ho.
  destruct (step_owns _ _ _ _ _ _ (Pop out_fd) Hcap Ho) as (m' & [t Hr] & Ho').
  exists m'. unfold run_op, bind, ret in Hr. simpl in Hr, Ho'.
  destruct (spsc_ring_pop (Some a) out_fd m) as [[[[rc out] m1] t1]|] eqn:Hp;
    [|done].
  destruct q as [|v q]; simplify_eq/=; (split; [by exists t1|done]).
Qed.

Lemma is_empty_owns cap a b q base m :
  valid_capacity cap →
  owns cap a b q base m →
  returns (spsc_ring_is_empty (Some a)) m (Z_of_bool (len q =? 0)) m.
Proof.
  intros Hcap Ho. pose proof Ho as (_ & _ & (ps & nq & Hat & _) & _).
  destruct Hat as (r & l & [Ha _ _ _ _ _ _ _ _ _ _]).
  destruct (step_owns _ _ _ _ _ _ Is_empty Hcap Ho) as (m' & [t Hr] & _).
  pose proof (is_empty_eq _ _ _ Ha) as Heq.
  unfold run_op, bind, ret in Hr. rewrite Heq in Hr. simpl in Hr.
  injection Hr as He _ _. unfold returns. eexists. rewrite Heq.
  by rewrite He.
Qed.

Lemma is_full_owns cap a b q base m :
  valid_capacity cap →
  owns cap a b q base m →
  returns (spsc_ring_is_full (Some a)) m (Z_of_bool (len q =? cap - 1)) m.
Proof.
  intros Hcap Ho. pose proof Ho as (_ & _ & (ps & nq & Hat & _) & _).
  destruct Hat as (r & l & [Ha _ _ _ _ _ _ _ _ _ _]).
  destruct (step_owns _ _ _ _ _ _ Is_full Hcap Ho) as (m' & [t Hr] & _).
  pose proof (is_full_eq _ _ _ Ha) as Heq.
  unfold run_op, bind, ret in Hr. rewrite Heq in Hr. simpl in Hr.
  injection Hr as He _ _. unfold returns. eexists. rewrite Heq.
  by rewrite He.
Qed.

Lemma destroy_owns cap a b q (base m : mem) :
  owns cap a b q base m →
  returns (spsc_ring_destroy (@Some ptr (Some a))) m (Some NULL) base.
Proof.
  intros (Ha & Hb & (ps & nq & Hat & _) & Hf).
  exists []. rewrite (destroy_ring_at _ _ _ _ _ _ Hat). do 3 f_equal.
  apply map_eq. intros c.
  destruct (decide (c = a)) as [->|Hca]; [by rewrite lookup_delete_eq|].
  rewrite lookup_delete_ne by done.
  destruct (decide (c = b)) as [->|Hcb]; [by rewrite lookup_delete_eq|].
  rewrite lookup_delete_ne by done. by apply Hf.
Qed.

(** Following a program call by call.  [ring_step] consumes the first call
    of the program in the goal, looking up what it returns in the lemma for
    the function called and the queue the ring holds. *)
Ltac compute_result H :=
  match type of H with
  | returns ?c ?m ?x ?m' =>
      let x' := eval vm_compute in x in
      change (returns c m x' m') in H
  end.

Ltac compute_queue H :=
  match type of H with
  | owns ?cap ?a ?b ?q ?base ?m =>
      let q' := eval vm_compute in q in
      change (owns cap a b q' base m) in H
  end.

Ltac ring_call lem Hcap H :=
  let m' := fresh "m" in
  let Hr := fresh "Hr" in
  let Ho := fresh "Ho" in
  destruct (lem Hcap H) as (m' & Hr & Ho);
  clear H; compute_result Hr; compute_queue Ho;
  eapply returns_bind; [exact Hr|]; clear Hr; cbv beta.

Ltac ring_query lem Hcap H :=
  let Hr := fresh "Hr" in
  pose proof (lem Hcap H) as Hr;
  compute_result Hr;
  eapply returns_bind; [exact Hr|]; clear Hr; cbv beta.

Ltac ring_step Hcap :=
  lazymatch goal with
  | |- returns (bind (bind _ _) _) _ _ _ => apply returns_bind_assoc
  | |- returns (bind (ret _) _) _ _ _ =>
      apply returns_bind_ret; cbv beta iota
  | H : owns ?cap ?a ?b ?q ?base ?m
    |- returns (bind (spsc_ring_push (Some ?a) ?fd) _) ?m _ _ =>
      ring_call (λ Hc Ho, push_owns cap a b q base m fd Hc Ho) Hcap H
  | H : owns ?cap ?a ?b ?q ?base ?m
    |- returns (bind (spsc_ring_pop (Some ?a) ?out_fd) _) ?m _ _ =>
      ring_call (λ Hc Ho, pop_owns cap a b q base m out_fd Hc Ho) Hcap H
  | H : owns ?cap ?a ?b ?q ?base ?m
    |- returns (bind (spsc_ring_is_empty (Some ?a)) _) ?m _ _ =>
      ring_query (λ Hc Ho, is_empty_owns cap a b q base m Hc Ho) Hcap H
  | H : owns ?cap ?a ?b ?q ?base ?m
    |- returns (bind (spsc_ring_is_full (Some ?a)) _) ?m _ _ =>
      ring_query (λ Hc Ho, is_full_owns cap a b q base m Hc Ho) Hcap H
  | H : owns ?cap ?a ?b ?q ?base ?m
    |- returns (bind (spsc_ring_destroy (Some (Some ?a))) _) ?m _ _ =>
      eapply returns_bind; [exact (destroy_owns cap a b q base m H)|];
      clear H; cbv beta
  end.

(** * The demonstration program *)

(** X12: [main] returns -1 and prints the failure message when an
    allocation of [spsc_ring_init] fails.  Otherwise it returns 0 and
    prints: the ring is full (seven of its ten pushes succeed); the values
    42 to 48 in order; for each of the last three pops, which fail, whatever
    its uninitialized variable [value] holds, or the failure message only if
    that happens to be -1; and that the ring is empty.  In every case the
    heap is left as it was found. *)
Theorem main_behaviour (ring_ok buf_ok : bool) (junk : Z → Z) (m : mem) :
  returns (main ring_ok buf_ok junk) m
    (if ring_ok && buf_ok then (0, main_output junk)
     else (-1, [Msg_init_failed]))
    m.
Proof.
  assert (Hcap : valid_capacity 8) by valid_capacity_pow 3.
  unfold main. destruct ring_ok; [destruct buf_ok|]; cbn [andb].
  - destruct (init_owns 8 m Hcap) as (a & b & m0 & Hi & Ho).
    eapply returns_bind; [exact Hi|]. cbv beta. cbn [is_null].
    cbn [for_loop Z.add Pos.add Pos.succ Pos.add_carry].
    repeat ring_step Hcap.
    match goal with
    | |- returns (ret ?x) _ ?y _ =>
        assert (x = y) as ->; [|apply returns_ret]
    end.
    unfold main_output. simpl.
    by destruct (junk 7 =? -1), (junk 8 =? -1), (junk 9 =? -1).
  - destruct (init_buf_fail _ Hcap m) as (t & Hi).
    eapply returns_bind; [by exists t|]. apply returns_ret.
  - eapply returns_bind; [exists []; apply (init_ring_fail _ Hcap)|].
    apply returns_ret.
Qed.

Lemma main_output_examples :
  main_output (λ _, 48)
  = [Msg_full; Msg_popped 42; Msg_popped 43; Msg_popped 44; Msg_popped 45;
     Msg_popped 46; Msg_popped 47; Msg_popped 48; Msg_popped 48;
     Msg_popped 48; Msg_popped 48; Msg_empty]
  ∧ main_output (λ _, -1)
    = [Msg_full; Msg_popped 42; Msg_popped 43; Msg_popped 44; Msg_popped 45;
       Msg_popped 46; Msg_popped 47; Msg_popped 48; Msg_pop_failed;
       Msg_pop_failed; Msg_pop_failed; Msg_empty].
Proof. split; reflexivity. Qed.

(** * The unit tests *)

Ltac unfold_test :=
  cbn [tfor Z.add Pos.add Pos.succ Pos.add_carry];
  unfold create_ring, destroy_ring, tbind, lift, assert_true, assert_false,
    assert_int_equal, assert_null, assert_non_null, check, tret.

(** Evaluates the condition of the assertion that comes next. *)
Ltac eval_check :=
  match goal with
  | |- context [if ?b then Some tt else None] =>
      let b' := eval vm_compute in b in
      change b with b'
  end;
  cbv beta iota.

Ltac test_step Hcap :=
  first
    [ ring_step Hcap
    | progress eval_check
    | lazymatch goal with
      | |- returns (bind (spsc_ring_init true true ?cap) _) ?m _ _ =>
          let a := fresh "a" in
          let b := fresh "b" in
          let m0 := fresh "m" in
          let Hi := fresh "Hi" in
          let Ho := fresh "Ho" in
          destruct (init_owns cap m Hcap) as (a & b & m0 & Hi & Ho);
          eapply returns_bind; [exact Hi|]; clear Hi; cbv beta
      | |- returns (bind (spsc_ring_init true false ?cap) _) ?m _ _ =>
          eapply returns_bind;
          [destruct (init_buf_fail cap Hcap m) as (? & Hi); eexists; exact Hi|];
          cbv beta
      | |- returns (bind (spsc_ring_init false ?ok ?cap) _) ?m _ _ =>
          eapply returns_bind;
          [exists []; exact (init_ring_fail cap Hcap ok m)|];
          cbv beta
      end ].

(** A test that constructs a ring of capacity [2 ^ k] passes when the
    allocations succeed and stops at [assert_non_null] when one fails. *)
Ltac run_test Hcap :=
  cbn [andb]; unfold_test; repeat test_step Hcap; apply returns_ret.

Lemma valid_capacity_test_sizes :
  valid_capacity 4 ∧ valid_capacity 8 ∧ valid_capacity 16.
Proof.
  split; [valid_capacity_pow 2|]. split; [valid_capacity_pow 3|].
  valid_capacity_pow 4.
Qed.

Lemma test_init_accepts_power_of_two_ok ring_ok buf_ok (m : mem) :
  returns (test_init_accepts_power_of_two ring_ok buf_ok) m
    (if ring_ok && buf_ok then Some tt else None) m.
Proof.
  pose proof (proj2 (proj2 valid_capacity_test_sizes)) as Hcap.
  unfold test_init_accepts_power_of_two.
  destruct ring_ok; [destruct buf_ok|]; run_test Hcap.
Qed.

Lemma test_push_pop_fifo_order_ok ring_ok buf_ok (m : mem) :
  returns (test_push_pop_fifo_order ring_ok buf_ok) m
    (if ring_ok && buf_ok then Some tt else None) m.
Proof.
  pose proof (proj1 (proj2 valid_capacity_test_sizes)) as Hcap.
  unfold test_push_pop_fifo_order.
  destruct ring_ok; [destruct buf_ok|]; run_test Hcap.
Qed.

Lemma test_detects_full_ring_ok ring_ok buf_ok (m : mem) :
  returns (test_detects_full_ring ring_ok buf_ok) m
    (if ring_ok && buf_ok then Some tt else None) m.
Proof.
  pose proof (proj1 valid_capacity_test_sizes) as Hcap.
  unfold test_detects_full_ring.
  destruct ring_ok; [destruct buf_ok|]; run_test Hcap.
Qed.

Lemma test_pop_from_empty_ring_ok ring_ok buf_ok (m : mem) :
  returns (test_pop_from_empty_ring ring_ok buf_ok) m
    (if ring_ok && buf_ok then Some tt else None) m.
Proof.
  pose proof (proj1 (proj2 valid_capacity_test_sizes)) as Hcap.
  unfold test_pop_from_empty_ring.
  destruct ring_ok; [destruct buf_ok|]; run_test Hcap.
Qed.

Lemma test_push_returns_error_when_ring_full_ok ring_ok buf_ok (m : mem) :
  returns (test_push_returns_error_when_ring_full ring_ok buf_ok) m
    (if ring_ok && buf_ok then Some tt else None) m.
Proof.
  pose proof (proj1 (proj2 valid_capacity_test_sizes)) as Hcap.
  unfold test_push_returns_error_when_ring_full.
  destruct ring_ok; [destruct buf_ok|]; run_test Hcap.
Qed.

Lemma test_pop_succeeds_when_not_empty_ok ring_ok buf_ok (m : mem) :
  returns (test_pop_succeeds_when_not_empty ring_ok buf_ok) m
    (if ring_ok && buf_ok then Some tt else None) m.
Proof.
  pose proof (proj1 (proj2 valid_capacity_test_sizes)) as Hcap.
  unfold test_pop_succeeds_when_not_empty.
  destruct ring_ok; [destruct buf_ok|]; run_test Hcap.
Qed.

Lemma init_rejects_0 ring_ok buf_ok (m : mem) :
  spsc_ring_init ring_ok buf_ok 0 m = Some (NULL, m, []).
Proof. reflexivity. Qed.

Lemma init_rejects_3 ring_ok buf_ok (m : mem) :
  spsc_ring_init ring_ok buf_ok 3 m = Some (NULL, m, []).
Proof. reflexivity. Qed.

(** X13: from any heap, each of the six unit tests that construct a ring
    passes all its assertions when the allocations succeed, and stops at
    [assert_non_null] when one fails; the three tests that construct none
    pass whatever the allocator does.  Every test leaves the heap as it
    found it. *)
Theorem unit_tests_pass (ring_ok buf_ok : bool) (m : mem) :
  Forall
    (λ test : bool → bool → T unit,
       returns (test ring_ok buf_ok) m
         (if ring_ok && buf_ok then Some tt else None) m)
    tests_with_a_ring
  ∧ returns (test_init_rejects_invalid_capacity ring_ok buf_ok) m (Some tt) m
  ∧ returns test_destroy_handles_null_pointer m (Some tt) m
  ∧ returns test_destroy_handles_null_ring_instance m (Some tt) m.
Proof.
  split; [|split; [|split]].
  - unfold tests_with_a_ring. repeat apply Forall_cons_2; [..|apply Forall_nil_2].
    + apply test_init_accepts_power_of_two_ok.
    + apply test_push_pop_fifo_order_ok.
    + apply test_detects_full_ring_ok.
    + apply test_pop_from_empty_ring_ok.
    + apply test_push_returns_error_when_ring_full_ok.
    + apply test_pop_succeeds_when_not_empty_ok.
  - unfold test_init_rejects_invalid_capacity. unfold_test.
    apply returns_bind_assoc.
    eapply returns_bind; [exists []; apply init_rejects_0|]. cbv beta.
    apply returns_bind_ret. cbv beta iota.
    eapply returns_bind; [apply returns_ret|]. cbv beta iota.
    apply returns_bind_assoc.
    eapply returns_bind; [exists []; apply init_rejects_3|]. cbv beta.
    apply returns_bind_ret. cbv beta iota. apply returns_ret.
  - by exists [].
  - by exists [].
Qed.
